(** * caret_analyze: the Architecture facade, its context updater and differencer

    A shallow embedding of [caret_analyze/architecture/architecture.py].
    Python objects are records, exceptions are values of [error], and the
    methods of [Architecture] run in a small monad that threads the
    architecture, may raise, and records what is printed or logged. *)

From Stdlib Require Import ZArith String Ascii List Sorted Permutation DecimalString.
From stdpp Require Import base option list strings gmap sets.

Local Open Scope string_scope.
Local Open Scope Z_scope.

(** ** Exceptions, with the message given at the raise site *)

Inductive error :=
| InvalidArgumentError (msg : string)
| ItemNotFoundError (msg : string)
| MultipleItemFoundError (msg : string)
| UnsupportedTypeError (msg : string).

(** What the program does besides giving its result: a [print], a
    [logger.warning], and the call of [NodePathSearcher.search] that starts
    the graph traversal. *)
Inductive event :=
| Printed (msg : string)
| Warned (msg : string)
| Searched (node_names : list string) (max_node_depth : Z).

(** ** Struct objects

    A struct and the value object its [to_value()] yields carry the same
    fields, so one record stands for both. A construction order that may be
    [None] in Python is an [option Z]. *)

(** The dict of a message context, as [MessageContext.to_dict()] yields it
    and as [ContextUpdater] appends it. The two order keys may be missing
    (outer [None]), which is why the source reads them with [.get(key, 0)];
    when present they hold the construction order of a node path. *)
Record context_dict := {
  context_type : string;
  subscription_topic_name : option string;
  publisher_topic_name : option string;
  ctx_subscription_construction_order : option (option Z);
  ctx_publisher_construction_order : option (option Z)
}.

#[global] Instance context_dict_eq_dec : EqDecision context_dict.
Proof. solve_decision. Defined.

Record NodePathStruct := {
  np_node_name : string;
  subscribe_topic_name : option string;
  publish_topic_name : option string;
  np_subscription_construction_order : option Z;
  np_publisher_construction_order : option Z;
  message_context : option context_dict
}.

Record PublisherStruct := {
  pub_topic_name : string;
  pub_construction_order : Z
}.

Record SubscriptionStruct := {
  sub_topic_name : string;
  sub_construction_order : Z
}.

(** The three callback classes [_verify] tells apart, and any other
    [CallbackStruct]. *)
Inductive callback_class :=
| TimerCallbackStruct (period_ns : Z)
| SubscriptionCallbackStruct (subscribe_topic_name : string)
| ServiceCallbackStruct (service_name : string)
| OtherCallbackStruct.

Record CallbackStruct := {
  callback_name : string;
  callback_type_name : string;
  symbol : string;
  construction_order : Z;
  callback_class_of : callback_class
}.

Record CallbackGroupStruct := {
  callback_group_name : string;
  cbg_node_name : string;
  cbg_callbacks : list CallbackStruct
}.

Record NodeStruct := {
  node_name : string;
  publishers : list PublisherStruct;
  subscriptions : list SubscriptionStruct;
  paths : list NodePathStruct;
  callbacks : option (list CallbackStruct);
  callback_groups : option (list CallbackGroupStruct)
}.

Record CommunicationStruct := {
  publish_node_name : string;
  subscribe_node_name : string;
  topic_name : string;
  publisher_construction_order : Z;
  subscription_construction_order : Z
}.

Record ExecutorStruct := {
  executor_name : string;
  exec_callback_groups : list CallbackGroupStruct
}.

(** A child of a stored path. *)
Inductive path_child :=
| NodePathChild (node_path : NodePathStruct)
| CommunicationChild (comm : CommunicationStruct).

Record PathStruct := {
  path_name : option string;
  child : list path_child
}.

(** A child of a [PathStructValue] handed in by a caller: Python does not
    stop a caller from putting something else in the tuple. *)
Inductive child_value :=
| NodePathStructValue (c : NodePathStruct)
| CommunicationStructValue (c : CommunicationStruct)
| OtherValue.

Record PathStructValue := {
  pv_path_name : option string;
  pv_child : list child_value
}.

Record Architecture := {
  _nodes : list NodeStruct;
  _communications : list CommunicationStruct;
  _executors : list ExecutorStruct;
  _paths : list PathStruct;
  _max_callback_construction_order_on_path_searching : Z
}.

Definition set_paths (ps : list PathStruct) (a : Architecture) : Architecture :=
  {| _nodes := _nodes a; _communications := _communications a;
     _executors := _executors a; _paths := ps;
     _max_callback_construction_order_on_path_searching :=
       _max_callback_construction_order_on_path_searching a |}.

Definition set_nodes (ns : list NodeStruct) (a : Architecture) : Architecture :=
  {| _nodes := ns; _communications := _communications a;
     _executors := _executors a; _paths := _paths a;
     _max_callback_construction_order_on_path_searching :=
       _max_callback_construction_order_on_path_searching a |}.

Definition set_executors (es : list ExecutorStruct) (a : Architecture) : Architecture :=
  {| _nodes := _nodes a; _communications := _communications a;
     _executors := es; _paths := _paths a;
     _max_callback_construction_order_on_path_searching :=
       _max_callback_construction_order_on_path_searching a |}.

Definition set_communications (cs : list CommunicationStruct) (a : Architecture)
  : Architecture :=
  {| _nodes := _nodes a; _communications := cs;
     _executors := _executors a; _paths := _paths a;
     _max_callback_construction_order_on_path_searching :=
       _max_callback_construction_order_on_path_searching a |}.

(** ** The monad of the methods

    A method gets the architecture and gives back its result or the
    exception it raised, the architecture as it then is (a raise does not
    undo earlier writes), and the events it emitted. *)

Definition M (A : Type) : Type :=
  Architecture -> (error + A) * Architecture * list event.

Definition ret {A} (x : A) : M A := fun a => (inr x, a, []).

Definition raise {A} (e : error) : M A := fun a => (inl e, a, []).

Definition bind {A B} (m : M A) (f : A -> M B) : M B := fun a =>
  match m a with
  | (inl e, a', l) => (inl e, a', l)
  | (inr x, a', l) =>
      match f x a' with
      | (r, a'', l') => (r, a'', (l ++ l')%list)
      end
  end.

Definition get : M Architecture := fun a => (inr a, a, []).

Definition modify (f : Architecture -> Architecture) : M unit :=
  fun a => (inr tt, f a, []).

Definition emit (ev : event) : M unit := fun a => (inr tt, a, [ev]).

(** A lookup that raised or found its item, taken into the monad. *)
Definition lift {A} (r : error + A) : M A :=
  match r with
  | inl e => raise e
  | inr x => ret x
  end.

Notation "x <- m ;; k" := (bind m (fun x => k))
  (at level 100, m at next level, right associativity).
Notation "m ;;; k" := (bind m (fun _ => k))
  (at level 100, right associativity).

Definition result_of {A} (o : (error + A) * Architecture * list event) : error + A :=
  o.1.1.
Definition state_of {A} (o : (error + A) * Architecture * list event) : Architecture :=
  o.1.2.
Definition events_of {A} (o : (error + A) * Architecture * list event) : list event :=
  o.2.

(** ** [sorted]

    Python's [sorted] is stable; so is this insertion sort, which puts an
    element in front of the first one that is not smaller. Strings compare
    as in Python, character by character by code. *)

Section sorted.
Context {A : Type} (key : A -> string).

Fixpoint insert_by (x : A) (l : list A) : list A :=
  match l with
  | [] => [x]
  | y :: l' =>
      if String.leb (key x) (key y) then x :: y :: l' else y :: insert_by x l'
  end.

Definition sorted_by (l : list A) : list A := foldr insert_by [] l.

(** The order the result is sorted by. *)
Definition key_le (x y : A) : Prop := String.leb (key x) (key y) = true.

End sorted.

Definition sorted (l : list string) : list string := sorted_by (fun s => s) l.

(** [str(n)] for an int. *)
Definition str_of_int (n : Z) : string := NilZero.string_of_int (Z.to_int n).

(** ** Util

    Modelled from the spec: [Util.find_one] and [Util.find_similar_one]
    live in [caret_analyze/common/util.py], which is not among the sources.
    [find_one] fails with [ItemNotFoundError] on zero matches and with
    [MultipleItemFoundError] on more than one (so do the docstrings of its
    callers); the text of its messages is not known and left empty. *)
Definition find_one_at {A} (condition : A -> bool) (items : list A)
  : error + (nat * A) :=
  match filter (fun p => condition p.2 = true) (imap pair items) with
  | [] => inl (ItemNotFoundError "")
  | [p] => inr p
  | _ :: _ :: _ => inl (MultipleItemFoundError "")
  end.

Definition find_one {A} (condition : A -> bool) (items : list A) : error + A :=
  match find_one_at condition items with
  | inl e => inl e
  | inr p => inr p.2
  end.

(** ** Read accessors *)

Definition node_names (a : Architecture) : list string :=
  sorted (map node_name (_nodes a)).

Definition executor_names (a : Architecture) : list string :=
  sorted (map executor_name (_executors a)).

Definition path_names (a : Architecture) : list string :=
  sorted (omap path_name (_paths a)).

(** ** Named paths: [add_path], [remove_path], [update_path] *)

Definition is_target_node (c : NodePathStruct) (node : NodeStruct) : bool :=
  bool_decide (np_node_name c = node_name node).

Definition is_target_node_path (c node_path : NodePathStruct) : bool :=
  bool_decide (publish_topic_name c = publish_topic_name node_path)
  && bool_decide (subscribe_topic_name c = subscribe_topic_name node_path)
  && bool_decide (np_publisher_construction_order c
                  = np_publisher_construction_order node_path)
  && bool_decide (np_subscription_construction_order c
                  = np_subscription_construction_order node_path).

Definition is_target_comm (c comm : CommunicationStruct) : bool :=
  bool_decide (publish_node_name c = publish_node_name comm)
  && bool_decide (subscribe_node_name c = subscribe_node_name comm)
  && bool_decide (topic_name c = topic_name comm)
  && bool_decide (publisher_construction_order c = publisher_construction_order comm)
  && bool_decide (subscription_construction_order c
                  = subscription_construction_order comm).

(** One turn of the loop over [path_info.child]. *)
Definition resolve_child (a : Architecture) (c : child_value) : error + path_child :=
  match c with
  | NodePathStructValue c =>
      match find_one (is_target_node c) (_nodes a) with
      | inl e => inl e
      | inr node =>
          match find_one (is_target_node_path c) (paths node) with
          | inl e => inl e
          | inr node_path => inr (NodePathChild node_path)
          end
      end
  | CommunicationStructValue c =>
      match find_one (is_target_comm c) (_communications a) with
      | inl e => inl e
      | inr comm => inr (CommunicationChild comm)
      end
  | OtherValue => inl (UnsupportedTypeError "")
  end.

Fixpoint resolve_children (a : Architecture) (cs : list child_value)
  : error + list path_child :=
  match cs with
  | [] => inr []
  | c :: cs' =>
      match resolve_child a c with
      | inl e => inl e
      | inr x =>
          match resolve_children a cs' with
          | inl e => inl e
          | inr xs => inr (x :: xs)
          end
      end
  end.

Definition add_path (path_name : string) (path_info : PathStructValue) : M unit :=
  a <- get ;;
  if bool_decide (path_name ∈ path_names a) then
    raise (InvalidArgumentError "Failed to add named path. Duplicate path name.")
  else
    child <- lift (resolve_children a (pv_child path_info)) ;;
    modify (fun a => set_paths (_paths a ++ [{| path_name := Some path_name;
                                                child := child |}]) a).

(** The loop of [remove_path]: the index of the last path of that name. *)
Definition last_index_named (name : string) (ps : list PathStruct) : option nat :=
  foldl (fun idx ip => if bool_decide (path_name ip.2 = Some name)
                       then Some ip.1 else idx)
        None (imap pair ps).

Definition remove_path (path_name : string) : M unit :=
  a <- get ;;
  if bool_decide (path_name ∈ path_names a) then
    match last_index_named path_name (_paths a) with
    | Some idx => modify (fun a => set_paths (delete idx (_paths a)) a)
    | None => ret tt
    end
  else
    raise (InvalidArgumentError
             ("Failed to remove named path. " ++ path_name ++ " not exist.")).

Definition update_path (path_name : string) (path : PathStructValue) : M unit :=
  match pv_path_name path with
  | None => raise (InvalidArgumentError "path_info.path_name is None")
  | Some own_name =>
      remove_path own_name ;;;
      add_path path_name path
  end.

(** ** Renaming

    Modelled from the spec: the [rename_node] methods of [NodeStruct],
    [ExecutorStruct] and [CommunicationStruct] are in
    [caret_analyze/architecture/struct], which is not among the sources. The
    spec has a rename update the canonical name and every reference to the
    old name held by a communication, an executor or a node; a name other
    than [src] stays. The children of a stored path are kept as values here,
    so the node names inside them are not renamed along, as they are in
    Python, where they are the renamed objects themselves; the names of
    paths, nodes and executors do not depend on that. *)
Definition renamed (src dst name : string) : string :=
  if bool_decide (name = src) then dst else name.

Definition NodePathStruct_rename_node (src dst : string) (p : NodePathStruct)
  : NodePathStruct :=
  {| np_node_name := renamed src dst (np_node_name p);
     subscribe_topic_name := subscribe_topic_name p;
     publish_topic_name := publish_topic_name p;
     np_subscription_construction_order := np_subscription_construction_order p;
     np_publisher_construction_order := np_publisher_construction_order p;
     message_context := message_context p |}.

Definition CallbackGroupStruct_rename_node (src dst : string) (g : CallbackGroupStruct)
  : CallbackGroupStruct :=
  {| callback_group_name := callback_group_name g;
     cbg_node_name := renamed src dst (cbg_node_name g);
     cbg_callbacks := cbg_callbacks g |}.

Definition NodeStruct_rename_node (src dst : string) (n : NodeStruct) : NodeStruct :=
  {| node_name := renamed src dst (node_name n);
     publishers := publishers n;
     subscriptions := subscriptions n;
     paths := map (NodePathStruct_rename_node src dst) (paths n);
     callbacks := callbacks n;
     callback_groups :=
       option_map (map (CallbackGroupStruct_rename_node src dst)) (callback_groups n) |}.

Definition ExecutorStruct_rename_node (src dst : string) (e : ExecutorStruct)
  : ExecutorStruct :=
  {| executor_name := executor_name e;
     exec_callback_groups :=
       map (CallbackGroupStruct_rename_node src dst) (exec_callback_groups e) |}.

Definition CommunicationStruct_rename_node (src dst : string) (c : CommunicationStruct)
  : CommunicationStruct :=
  {| publish_node_name := renamed src dst (publish_node_name c);
     subscribe_node_name := renamed src dst (subscribe_node_name c);
     topic_name := topic_name c;
     publisher_construction_order := publisher_construction_order c;
     subscription_construction_order := subscription_construction_order c |}.

Definition rename_node (src dst : string) : M unit :=
  modify (fun a => set_nodes (map (NodeStruct_rename_node src dst) (_nodes a)) a) ;;;
  modify (fun a =>
            set_executors (map (ExecutorStruct_rename_node src dst) (_executors a)) a) ;;;
  modify (fun a =>
            set_communications
              (map (CommunicationStruct_rename_node src dst) (_communications a)) a).

Definition set_path_name (dst : string) (p : PathStruct) : PathStruct :=
  {| path_name := Some dst; child := child p |}.

Definition set_executor_name (dst : string) (e : ExecutorStruct) : ExecutorStruct :=
  {| executor_name := dst; exec_callback_groups := exec_callback_groups e |}.

Section Architecture.

(** The nearest-name matcher behind [Util.find_similar_one]: given the
    wanted name and the names of the items, the index of the item whose name
    is close enough, if there is one. *)
Variable similar : string -> list (option string) -> option nat.

(** Modelled from the spec: [Util.find_similar_one] is not among the
    sources. An exact match is taken first; without one the nearest-name
    match is tried; failing that the lookup raises [ItemNotFoundError]. The
    item is given by its index, since the caller then writes to it. Of
    several items of exactly the wanted name the model takes the first; the
    spec does not say which is taken, and nothing proved below a uniqueness
    assumption depends on it. *)
Definition find_similar_one {A} (target_name : string) (items : list A)
    (key : A -> option string) : error + nat :=
  match list_find (fun x => key x = Some target_name) items with
  | Some p => inr p.1
  | None =>
      match similar target_name (map key items) with
      | Some i => if bool_decide (i < length items)%nat then inr i
                  else inl (ItemNotFoundError "")
      | None => inl (ItemNotFoundError "")
      end
  end.

Definition rename_path (src dst : string) : M unit :=
  a <- get ;;
  i <- lift (find_similar_one src (_paths a) path_name) ;;
  modify (fun a => set_paths (alter (set_path_name dst) i (_paths a)) a).

Definition rename_executor (src dst : string) : M unit :=
  a <- get ;;
  i <- lift (find_similar_one src (_executors a) (fun x => Some (executor_name x))) ;;
  modify (fun a => set_executors (alter (set_executor_name dst) i (_executors a)) a).

(** The mutations a caller can string together. *)
Inductive mutation :=
| AddPath (path_name : string) (path_info : PathStructValue)
| RemovePath (path_name : string)
| UpdatePath (path_name : string) (path : PathStructValue)
| RenamePath (src dst : string)
| RenameNode (src dst : string)
| RenameExecutor (src dst : string).

Definition apply_mutation (m : mutation) : M unit :=
  match m with
  | AddPath n p => add_path n p
  | RemovePath n => remove_path n
  | UpdatePath n p => update_path n p
  | RenamePath src dst => rename_path src dst
  | RenameNode src dst => rename_node src dst
  | RenameExecutor src dst => rename_executor src dst
  end.

(** The architecture after a sequence of calls, each of which may have
    raised (the caller goes on with the object as the call left it). *)
Fixpoint run (ms : list mutation) (a : Architecture) : Architecture :=
  match ms with
  | [] => a
  | m :: ms' => run ms' (state_of (apply_mutation m a))
  end.

(** A rename whose new name is not yet in use; any other call. *)
Definition path_dst_unused (m : mutation) (a : Architecture) : bool :=
  match m with
  | RenamePath _ dst => negb (bool_decide (dst ∈ path_names a))
  | _ => true
  end.

Definition node_dst_unused (m : mutation) (a : Architecture) : bool :=
  match m with
  | RenameNode _ dst => negb (bool_decide (dst ∈ node_names a))
  | _ => true
  end.

Definition executor_dst_unused (m : mutation) (a : Architecture) : bool :=
  match m with
  | RenameExecutor _ dst => negb (bool_decide (dst ∈ executor_names a))
  | _ => true
  end.

Definition dst_unused (m : mutation) (a : Architecture) : bool :=
  path_dst_unused m a && node_dst_unused m a && executor_dst_unused m a.

(** Along a sequence of calls, every rename (every [rename_node]) takes a
    new name that is not in use when it is called. *)
Fixpoint renames_unused (ms : list mutation) (a : Architecture) : bool :=
  match ms with
  | [] => true
  | m :: ms' => dst_unused m a && renames_unused ms' (state_of (apply_mutation m a))
  end.

Fixpoint node_renames_unused (ms : list mutation) (a : Architecture) : bool :=
  match ms with
  | [] => true
  | m :: ms' =>
      node_dst_unused m a && node_renames_unused ms' (state_of (apply_mutation m a))
  end.

Definition unique_names (a : Architecture) : Prop :=
  NoDup (path_names a) /\ NoDup (node_names a) /\ NoDup (executor_names a).

(** ** [search_paths] *)

Definition child_to_value (c : path_child) : child_value :=
  match c with
  | NodePathChild p => NodePathStructValue p
  | CommunicationChild c => CommunicationStructValue c
  end.

Definition PathStruct_to_value (p : PathStruct) : PathStructValue :=
  {| pv_path_name := path_name p; pv_child := map child_to_value (child p) |}.

(** [NodePathSearcher(...).search(...)] of [graph_search], which is not
    among the sources: nodes, communications, the construction-order limit,
    the two filters, the waypoints and the depth go in; paths or an
    exception come out. *)
Variable NodePathSearcher_search :
  list NodeStruct -> list CommunicationStruct -> Z ->
  option (string -> bool) -> option (string -> bool) ->
  list string -> Z -> error + list PathStruct.

Definition default_depth : Z := 15.

Definition msg_detail_page : string :=
  "For details, " ++
  "see https://tier4.github.io/caret_doc/latest/configuration/inter_node_data_path/.".

Definition msg_depth_warning : string :=
  ("Argument 'max_node_depth' greater than " ++ str_of_int default_depth ++
   " is not recommended " ++
   "because it significantly increases the search time " ++
   "and the number of returned paths. ") ++
  ("If you are searching for paths that exceeds the depth " ++
   str_of_int default_depth ++ ", " ++
   "consider specifying an intermediate node. ") ++
  msg_detail_page.

Definition msg_search_completed (max_node_depth : Z) : string :=
  "A search up to depth " ++ str_of_int max_node_depth ++ " has been completed. " ++
  ("If the paths you want to measure cannot be found, " ++
   "consider specifying intermediate nodes. ") ++
  "Also, if the number of paths is too large, consider filtering node/topic names. " ++
  msg_detail_page.

(** The first loop: every waypoint has to be a node name. *)
Fixpoint check_node_names (names : list string) : M unit :=
  match names with
  | [] => ret tt
  | node_name :: rest =>
      a <- get ;;
      if bool_decide (node_name ∈ node_names a) then check_node_names rest
      else raise (ItemNotFoundError ("Failed to find node. " ++ node_name))
  end.

(** [max_node_depth or default_depth]: [None] and [0] are falsy. *)
Definition depth_or_default (max_node_depth : option Z) : Z :=
  match max_node_depth with
  | None => default_depth
  | Some d => if bool_decide (d = 0) then default_depth else d
  end.

Definition search_paths (names : list string) (max_node_depth : option Z)
    (node_filter communication_filter : option (string -> bool))
  : M (list PathStructValue) :=
  check_node_names names ;;;
  let max_node_depth := depth_or_default max_node_depth in
  (if bool_decide (max_node_depth > default_depth)
   then emit (Printed msg_depth_warning) else ret tt) ;;;
  a <- get ;;
  emit (Searched names max_node_depth) ;;;
  found <- lift (NodePathSearcher_search
                   (_nodes a) (_communications a)
                   (_max_callback_construction_order_on_path_searching a)
                   node_filter communication_filter names max_node_depth) ;;
  let paths := map PathStruct_to_value found in
  emit (Printed (msg_search_completed max_node_depth)) ;;;
  ret paths.

(** ** [_verify] and the callbacks accessor *)

(** [cb_param: str | int]. *)
Inductive cb_param :=
| IntParam (n : Z)
| StrParam (s : string).

#[global] Instance cb_param_eq_dec : EqDecision cb_param.
Proof. solve_decision. Defined.

















Definition Architecture_callback_groups (a : Architecture) : list CallbackGroupStruct :=
  concat (map (fun node => default [] (callback_groups node)) (_nodes a)).



(** ** ContextUpdater *)

Record ContextUpdater := {
  _node : NodeStruct;
  _contexts : list context_dict
}.

Definition ContextUpdater_init (node : NodeStruct) : ContextUpdater :=
  {| _node := node; _contexts := omap message_context (paths node) |}.

Definition set_context_type (context_type : string) (c : context_dict) : context_dict :=
  {| context_type := context_type;
     subscription_topic_name := subscription_topic_name c;
     publisher_topic_name := publisher_topic_name c;
     ctx_subscription_construction_order := ctx_subscription_construction_order c;
     ctx_publisher_construction_order := ctx_publisher_construction_order c |}.

(** The first loop: contexts of the topic pair get the new type. *)
Definition overwrite_context_type (context_type subscribe_topic_name publish_topic_name : string)
    (c : context_dict) : context_dict :=
  if bool_decide ((subscription_topic_name c, publisher_topic_name c)
                  = (Some subscribe_topic_name, Some publish_topic_name))
  then set_context_type context_type c else c.

(** One turn of the second loop: a path of the topic pair that has no
    context yet gets one, with the construction orders of the path. *)
Definition append_context (context_type sub_topic pub_topic : string)
    (contexts : list context_dict) (path : NodePathStruct) : list context_dict :=
  match message_context path with
  | Some _ => contexts
  | None =>
      if bool_decide ((subscribe_topic_name path, publish_topic_name path)
                      = (Some sub_topic, Some pub_topic))
      then contexts ++
           [{| context_type := context_type;
               subscription_topic_name := Some sub_topic;
               publisher_topic_name := Some pub_topic;
               ctx_subscription_construction_order :=
                 Some (np_subscription_construction_order path);
               ctx_publisher_construction_order :=
                 Some (np_publisher_construction_order path) |}]
      else contexts
  end.

Definition ContextUpdater_update_message_context
    (context_type subscribe_topic_name publish_topic_name : string)
    (u : ContextUpdater) : ContextUpdater :=
  let overwritten :=
    map (overwrite_context_type context_type subscribe_topic_name publish_topic_name)
        (_contexts u) in
  {| _node := _node u;
     _contexts :=
       foldl (append_context context_type subscribe_topic_name publish_topic_name)
             overwritten (paths (_node u)) |}.

(** [context.get(key, 0)]. *)
Definition get_order (o : option (option Z)) : option Z := default (Some 0) o.

(** The five-tuple [remove_callback_chain] compares. *)
Definition full_key (c : context_dict)
  : option string * option Z * option string * option Z * string :=
  (subscription_topic_name c, get_order (ctx_subscription_construction_order c),
   publisher_topic_name c, get_order (ctx_publisher_construction_order c),
   context_type c).

Definition remove_callback_chain
    (subscribe_topic_name : string) (subscription_construction_order : Z)
    (publish_topic_name : string) (publisher_construction_order : Z)
    (u : ContextUpdater) : ContextUpdater :=
  {| _node := _node u;
     _contexts :=
       filter (fun context =>
                 full_key context <>
                 (Some subscribe_topic_name, Some subscription_construction_order,
                  Some publish_topic_name, Some publisher_construction_order,
                  "callback_chain"))
              (_contexts u) |}.

(** A record bears the construction order [n]: it holds that order, or it
    holds none and [n] is 0. A record that holds Python's [None] as its order
    bears no order. *)
Definition order_is (stored : option (option Z)) (n : Z) : Prop :=
  stored = Some (Some n) \/ (stored = None /\ n = 0).

(** The record is the callback chain of the given topics and orders. *)
Definition key_matches (c : context_dict) (sub_topic : string) (sub_order : Z)
    (pub_topic : string) (pub_order : Z) : Prop :=
  subscription_topic_name c = Some sub_topic /\
  order_is (ctx_subscription_construction_order c) sub_order /\
  publisher_topic_name c = Some pub_topic /\
  order_is (ctx_publisher_construction_order c) pub_order /\
  context_type c = "callback_chain".

#[global] Instance key_matches_dec (c : context_dict) (sub_topic : string)
    (sub_order : Z) (pub_topic : string) (pub_order : Z) :
  Decision (key_matches c sub_topic sub_order pub_topic pub_order).
Proof. unfold key_matches, order_is. apply _. Defined.

Definition get_message_contexts (u : ContextUpdater) : list context_dict := _contexts u.

(** ** [Architecture.update_message_context] *)

(** Modelled from the spec: the properties [publish_topic_names] and
    [subscribe_topic_names] and the method [update_node_path] of
    [NodeStruct] are not among the sources. The topic names are those of the
    publishers and subscriptions the node owns; the new node paths replace
    the old ones whole. *)
Definition publish_topic_names (node : NodeStruct) : list string :=
  map pub_topic_name (publishers node).

Definition subscribe_topic_names (node : NodeStruct) : list string :=
  map sub_topic_name (subscriptions node).

Definition update_node_path (node_paths : list NodePathStruct) (node : NodeStruct)
  : NodeStruct :=
  {| node_name := node_name node; publishers := publishers node;
     subscriptions := subscriptions node; paths := node_paths;
     callbacks := callbacks node; callback_groups := callback_groups node |}.

(** [NodeValuesLoaded._search_node_paths] of the loader, which is not among
    the sources: from a node, its message contexts and the construction
    order limit to the node paths of that node, or an exception. *)
Variable _search_node_paths :
  NodeStruct -> list context_dict -> Z -> error + list NodePathStruct.

Definition update_message_context
    (node_name' context_type subscribe_topic_name publish_topic_name : string) : M unit :=
  a <- get ;;
  found <- lift (find_one_at (fun x => bool_decide (node_name x = node_name'))
                             (_nodes a)) ;;
  let node := found.2 in
  if negb (bool_decide (publish_topic_name ∈ publish_topic_names node)) then
    raise (ItemNotFoundError "{pub_topic_name} is not found in {node_name}")
  else if negb (bool_decide (subscribe_topic_name ∈ subscribe_topic_names node)) then
    raise (ItemNotFoundError "{sub_topic_name} is not found in {node_name}")
  else
    let context_updater :=
      ContextUpdater_update_message_context
        context_type subscribe_topic_name publish_topic_name
        (ContextUpdater_init node) in
    node_paths <- lift (_search_node_paths
                          node (get_message_contexts context_updater)
                          (_max_callback_construction_order_on_path_searching a)) ;;
    modify (fun a => set_nodes (<[found.1 := update_node_path node_paths node]> (_nodes a)) a).

End Architecture.

(** ** DiffArchitecture *)

Definition Architecture_publishers (a : Architecture) : list PublisherStruct :=
  sorted_by pub_topic_name (concat (map publishers (_nodes a))).

Definition Architecture_subscriptions (a : Architecture) : list SubscriptionStruct :=
  sorted_by sub_topic_name (concat (map subscriptions (_nodes a))).

(** A Python set of strings is a [gset string]; [tuple(s)] lists its
    elements in an order the program does not choose. *)
Definition topic_names (a : Architecture) : list string :=
  let topic_names : gset string :=
    list_to_set (map pub_topic_name (Architecture_publishers a)) in
  let topic_names :=
    topic_names ∪ list_to_set (map sub_topic_name (Architecture_subscriptions a)) in
  sorted (elements topic_names).

Definition diff_node_names (left_arch right_arch : Architecture)
  : list string * list string :=
  let set_left_node_names : gset string := list_to_set (node_names left_arch) in
  let set_right_node_names : gset string := list_to_set (node_names right_arch) in
  let common_node_names := set_left_node_names ∩ set_right_node_names in
  (elements (set_left_node_names ∖ common_node_names),
   elements (set_right_node_names ∖ common_node_names)).

Definition diff_topic_names (left_arch right_arch : Architecture)
  : list string * list string :=
  let set_left_topics : gset string := list_to_set (topic_names left_arch) in
  let set_right_topics : gset string := list_to_set (topic_names right_arch) in
  let common_node_topics := set_left_topics ∩ set_right_topics in
  (elements (set_left_topics ∖ common_node_topics),
   elements (set_right_topics ∖ common_node_topics)).

(** ** Queries *)

(** [get_node]: the [ItemNotFoundError] of the lookup is caught and raised
    anew with the node name in its message; any other exception passes. *)
Definition get_node (node_name' : string) : M NodeStruct :=
  a <- get ;;
  match find_one (fun x => bool_decide (node_name x = node_name')) (_nodes a) with
  | inr node => ret node
  | inl (ItemNotFoundError _) =>
      raise (ItemNotFoundError ("Failed to find node. " ++ "node_name: " ++ node_name'))
  | inl e => raise e
  end.

Definition get_path (path_name' : string) : M PathStructValue :=
  a <- get ;;
  if bool_decide (path_name' ∈ path_names a) then
    named_path <- lift (find_one (fun x => bool_decide (path_name x = Some path_name'))
                                 (_paths a)) ;;
    ret (PathStruct_to_value named_path)
  else
    raise (InvalidArgumentError
             ("Failed to get named path. " ++ path_name' ++ " not exist.")).

Definition callback_group_names (a : Architecture) : list string :=
  sorted (map callback_group_name (Architecture_callback_groups a)).

(** The key [add_path] matches a requested child and a stored one on. *)
Definition child_resolves (a : Architecture) (c : child_value) (stored : path_child)
  : Prop :=
  match c, stored with
  | NodePathStructValue c, NodePathChild node_path =>
      exists node, node ∈ _nodes a /\ node_name node = np_node_name c /\
                   node_path ∈ paths node /\
                   is_target_node_path c node_path = true
  | CommunicationStructValue c, CommunicationChild comm =>
      comm ∈ _communications a /\ is_target_comm c comm = true
  | _, _ => False
  end.

(** The new record [ContextUpdater.update_message_context] appends for a
    node path. *)
Definition context_for_path (context_type sub_topic pub_topic : string)
    (path : NodePathStruct) : context_dict :=
  {| context_type := context_type;
     subscription_topic_name := Some sub_topic;
     publisher_topic_name := Some pub_topic;
     ctx_subscription_construction_order :=
       Some (np_subscription_construction_order path);
     ctx_publisher_construction_order :=
       Some (np_publisher_construction_order path) |}.

(** What one turn of the second loop of
    [ContextUpdater.update_message_context] appends, if anything. *)
Definition appended_context (context_type sub_topic pub_topic : string)
    (path : NodePathStruct) : option context_dict :=
  match message_context path with
  | Some _ => None
  | None =>
      if bool_decide ((subscribe_topic_name path, publish_topic_name path)
                      = (Some sub_topic, Some pub_topic))
      then Some (context_for_path context_type sub_topic pub_topic path)
      else None
  end.

(** The warning for a large depth, as a list of events. *)
Definition depth_warning (max_node_depth : Z) : list event :=
  if bool_decide (max_node_depth > default_depth) then [Printed msg_depth_warning]
  else [].

(** ** Example architectures *)

Definition named_path (name : string) : PathStruct :=
  {| path_name := Some name; child := [] |}.

Definition named_node (name : string) : NodeStruct :=
  {| node_name := name; publishers := []; subscriptions := []; paths := [];
     callbacks := None; callback_groups := None |}.

Definition arch_of (nodes : list NodeStruct) (paths : list PathStruct) : Architecture :=
  {| _nodes := nodes; _communications := []; _executors := []; _paths := paths;
     _max_callback_construction_order_on_path_searching := 10 |}.

(** Nodes [A] and [B], paths [a] and [b]. *)
Definition arch_ab : Architecture :=
  arch_of [named_node "A"; named_node "B"] [named_path "a"; named_path "b"].

(** A path value named [a], without children. *)
Definition path_value_a : PathStructValue :=
  {| pv_path_name := Some "a"; pv_child := [] |}.

(** A matcher that finds no name near enough, a searcher that finds no
    path, a loader primitive that derives no node path. *)
Definition no_similar : string -> list (option string) -> option nat :=
  fun _ _ => None.

Definition no_path_found :
  list NodeStruct -> list CommunicationStruct -> Z ->
  option (string -> bool) -> option (string -> bool) ->
  list string -> Z -> error + list PathStruct :=
  fun _ _ _ _ _ _ _ => inr [].

Definition no_node_path : NodeStruct -> list context_dict -> Z -> error + list NodePathStruct :=
  fun _ _ _ => inr [].

(** Three contexts of the topic pair [/in], [/out]: a callback chain of
    orders 0 and 0, one of another type, and a callback chain of publisher
    order 1. *)
Definition context_of (context_type : string) (pub_order : Z) : context_dict :=
  {| context_type := context_type;
     subscription_topic_name := Some "/in";
     publisher_topic_name := Some "/out";
     ctx_subscription_construction_order := None;
     ctx_publisher_construction_order := Some (Some pub_order) |}.

Definition updater_in_out : ContextUpdater :=
  {| _node := named_node "A";
     _contexts := [context_of "callback_chain" 0; context_of "use_latest_message" 0;
                   context_of "callback_chain" 1] |}.




(** A node that publishes [/out] and subscribes to [/in] and has no node
    path yet, and the architecture of that node alone. *)
Definition node_in_out : NodeStruct :=
  {| node_name := "A";
     publishers := [{| pub_topic_name := "/out"; pub_construction_order := 0 |}];
     subscriptions := [{| sub_topic_name := "/in"; sub_construction_order := 0 |}];
     paths := []; callbacks := None; callback_groups := None |}.

Definition arch_in_out : Architecture := arch_of [node_in_out] [].

(** * Properties *)

(** ** [sorted] sorts *)

Section sorted_facts.
Context {A : Type} (key : A -> string).

Lemma insert_by_Permutation (x : A) (l : list A) : insert_by key x l ≡ₚ x :: l.
Proof.
  induction l as [|y l IH]; simpl; [done|].
  destruct (String.leb (key x) (key y)); [done|].
  rewrite IH. apply Permutation_swap.
Qed.

Lemma sorted_by_Permutation (l : list A) : sorted_by key l ≡ₚ l.
Proof.
  induction l as [|x l IH]; simpl; [done|].
  by rewrite insert_by_Permutation, IH.
Qed.

Lemma insert_by_HdRel (x y : A) (l : list A) :
  (key_le key) y x -> HdRel (key_le key) y l -> HdRel (key_le key) y (insert_by key x l).
Proof.
  intros Hyx Hhd. destruct l as [|z l]; simpl.
  - by constructor.
  - destruct (String.leb (key x) (key z)); constructor; [done|].
    by inversion Hhd.
Qed.

Lemma insert_by_Sorted (x : A) (l : list A) :
  Sorted (key_le key) l -> Sorted (key_le key) (insert_by key x l).
Proof.
  induction 1 as [|y l Hs IH Hhd]; simpl.
  - repeat constructor.
  - destruct (String.leb (key x) (key y)) eqn:Hxy.
    + constructor; [by constructor|]. by constructor.
    + constructor; [done|]. apply insert_by_HdRel; [|done].
      unfold key_le. by destruct (String.leb_total (key x) (key y)) as [H|H];
        [rewrite H in Hxy|].
Qed.

Lemma sorted_by_Sorted (l : list A) : Sorted (key_le key) (sorted_by key l).
Proof.
  induction l as [|x l IH]; simpl; [constructor|]. by apply insert_by_Sorted.
Qed.

End sorted_facts.

Lemma sorted_Permutation (l : list string) : sorted l ≡ₚ l.
Proof. apply sorted_by_Permutation. Qed.

Lemma elem_of_sorted (x : string) (l : list string) : x ∈ sorted l <-> x ∈ l.
Proof. by rewrite sorted_Permutation. Qed.

Lemma NoDup_sorted (l : list string) : NoDup (sorted l) <-> NoDup l.
Proof. by rewrite sorted_Permutation. Qed.

(** ** Named paths *)

Lemma remove_path_absent (a : Architecture) (name : string) :
  name ∉ path_names a ->
  remove_path name a =
    (inl (InvalidArgumentError ("Failed to remove named path. " ++ name ++ " not exist.")),
     a, []).
Proof.
  intros Hn. unfold remove_path, bind, get.
  by rewrite bool_decide_eq_false_2.
Qed.

Lemma remove_path_cases (a : Architecture) (name : string) :
  (exists e, remove_path name a = (inl e, a, [])) \/
  (exists a', remove_path name a = (inr tt, a', [])).
Proof.
  unfold remove_path, bind, get. case_bool_decide; [|by left; eexists].
  right. destruct (last_index_named name (_paths a)); by eexists.
Qed.

Lemma add_path_events (a : Architecture) (name : string) (p : PathStructValue) :
  events_of (add_path name p a) = [].
Proof.
  unfold add_path, bind, get. case_bool_decide; [done|].
  by destruct (resolve_children a (pv_child p)).
Qed.

(** C4. [add_path] under a name that is already among [path_names] raises
    the duplicate-name [InvalidArgumentError] and hands back the
    architecture as it was: the path stored under that name and every other
    stored path are untouched. *)
Theorem add_path_duplicate_name (a : Architecture) (name : string) (p : PathStructValue) :
  name ∈ path_names a ->
  add_path name p a =
    (inl (InvalidArgumentError "Failed to add named path. Duplicate path name."), a, []).
Proof.
  intros Hin. unfold add_path, bind, get.
  by rewrite bool_decide_eq_true_2.
Qed.

Lemma add_path_duplicate_name_witness :
  "a" ∈ path_names arch_ab /\
  add_path "a" path_value_a arch_ab =
    (inl (InvalidArgumentError "Failed to add named path. Duplicate path name."),
     arch_ab, []).
Proof.
  assert (H : "a" ∈ path_names arch_ab) by (vm_compute; apply list_elem_of_here).
  split; [exact H | exact (add_path_duplicate_name arch_ab "a" path_value_a H)].
Defined.

(** C1, as the code has it. [update_path(n, p)] removes by the name the path
    [p] carries and adds under [n]. It raises [InvalidArgumentError] when [p]
    has no name, and, with the architecture unchanged, when the name of [p]
    is not among [path_names]; whether [n] is among them is not looked at.
    When it returns, what it did is [remove_path(p.path_name)] followed by
    [add_path(n, p)]. *)
Theorem update_path_removes_own_name (a : Architecture) (n : string) (p : PathStructValue) :
  (pv_path_name p = None ->
   update_path n p a =
     (inl (InvalidArgumentError "path_info.path_name is None"), a, [])) /\
  (forall own, pv_path_name p = Some own -> own ∉ path_names a ->
   update_path n p a =
     (inl (InvalidArgumentError
             ("Failed to remove named path. " ++ own ++ " not exist.")), a, [])) /\
  (result_of (update_path n p a) = inr tt ->
   exists own a1,
     pv_path_name p = Some own /\
     remove_path own a = (inr tt, a1, []) /\
     add_path n p a1 = (inr tt, state_of (update_path n p a), [])).
Proof.
  unfold update_path. split; [|split].
  - by intros ->.
  - intros own -> Hown. unfold bind. by rewrite remove_path_absent.
  - destruct (pv_path_name p) as [own|]; [|done].
    unfold bind. intros Hr.
    destruct (remove_path_cases a own) as [[e He]|[a1 Ha1]].
    + by rewrite He in Hr.
    + rewrite Ha1 in Hr |- *. exists own, a1. split; [done|]. split; [done|].
      pose proof (add_path_events a1 n p) as Hev.
      destruct (add_path n p a1) as [[r a2] l].
      unfold result_of, state_of, events_of in *. simpl in *. by subst.
Qed.

Lemma update_path_removes_own_name_witness :
  update_path "c" path_value_a (arch_of [] [named_path "b"]) =
    (inl (InvalidArgumentError "Failed to remove named path. a not exist."),
     arch_of [] [named_path "b"], []).
Proof.
  apply (proj1 (proj2 (update_path_removes_own_name
                         (arch_of [] [named_path "b"]) "c" path_value_a)) "a").
  - reflexivity.
  - apply (bool_decide_unpack _). vm_compute. exact I.
Defined.

(** C1, as the spec has it, fails: [b] is not among the path names, yet
    [update_path("b", p)] with [p] named [a] returns, and the stored path
    [a] has become [b]. *)
Lemma update_path_absent_name_returns :
  ("b" ∉ path_names (arch_of [] [named_path "a"])) /\
  update_path "b" path_value_a (arch_of [] [named_path "a"]) =
    (inr tt, arch_of [] [named_path "b"], []) /\
  arch_of [] [named_path "b"] <> arch_of [] [named_path "a"].
Proof.
  split; [|split].
  - apply (bool_decide_unpack _). vm_compute. exact I.
  - reflexivity.
  - discriminate.
Qed.

(** ** [search_paths] *)

Section search_paths_facts.
Variable search :
  list NodeStruct -> list CommunicationStruct -> Z ->
  option (string -> bool) -> option (string -> bool) ->
  list string -> Z -> error + list PathStruct.

Lemma check_node_names_known (a : Architecture) (names : list string) :
  Forall (fun w => w ∈ node_names a) names ->
  check_node_names names a = (inr tt, a, []).
Proof.
  induction 1 as [|w names Hw _ IH]; [done|].
  simpl. unfold bind, get. by rewrite bool_decide_eq_true_2, IH.
Qed.

Lemma check_node_names_unknown (a : Architecture) (names : list string) :
  Exists (fun w => w ∉ node_names a) names ->
  exists w, w ∈ names /\ (w ∉ node_names a) /\
    check_node_names names a =
      (inl (ItemNotFoundError ("Failed to find node. " ++ w)), a, []).
Proof.
  induction names as [|v names IH]; intros Hex; [by inversion Hex|].
  simpl. unfold bind, get. case_bool_decide as Hv.
  - destruct IH as (w & Hin & Hw & Heq).
    { inversion Hex; subst; [contradiction|done]. }
    exists w. rewrite Heq. split; [by right|done].
  - exists v. split; [by left|done].
Qed.

(** C5. When some waypoint is not among [node_names], [search_paths] raises
    [ItemNotFoundError] for such a waypoint; no traversal has been started
    and nothing printed (no event at all), and the architecture is the one
    it was called on. *)
Theorem search_paths_unknown_waypoint (a : Architecture) (names : list string)
    (max_node_depth : option Z) (node_filter communication_filter : option (string -> bool)) :
  (exists w, w ∈ names /\ w ∉ node_names a) ->
  exists w, w ∈ names /\ (w ∉ node_names a) /\
    search_paths search names max_node_depth node_filter communication_filter a =
      (inl (ItemNotFoundError ("Failed to find node. " ++ w)), a, []).
Proof.
  intros Hex.
  destruct (check_node_names_unknown a names) as (w & Hin & Hw & Heq).
  { apply Exists_exists. destruct Hex as (w & Hin & Hw). by exists w. }
  exists w. split; [done|]. split; [done|].
  unfold search_paths, bind. by rewrite Heq.
Qed.

Lemma depth_or_default_falsy :
  depth_or_default (Some 0) = 15 /\ depth_or_default None = 15 /\
  depth_or_default (Some 15) = 15.
Proof. done. Qed.

(** C10. [max_node_depth=0] and [max_node_depth=None] run the very search
    that [max_node_depth=15] runs; with known waypoints that is one call of
    the searcher at depth 15, without the warning for a large depth. *)
Theorem search_paths_falsy_depth (a : Architecture) (names : list string)
    (node_filter communication_filter : option (string -> bool)) :
  search_paths search names (Some 0) node_filter communication_filter a =
    search_paths search names (Some 15) node_filter communication_filter a /\
  search_paths search names None node_filter communication_filter a =
    search_paths search names (Some 15) node_filter communication_filter a /\
  (Forall (fun w => w ∈ node_names a) names ->
   search_paths search names (Some 0) node_filter communication_filter a =
     match search (_nodes a) (_communications a)
                  (_max_callback_construction_order_on_path_searching a)
                  node_filter communication_filter names 15 with
     | inl e => (inl e, a, [Searched names 15])
     | inr found =>
         (inr (map PathStruct_to_value found), a,
          [Searched names 15; Printed (msg_search_completed 15)])
     end).
Proof.
  split; [done|]. split; [done|].
  intros Hknown. unfold search_paths, bind.
  rewrite (check_node_names_known a names Hknown). simpl.
  by destruct (search _ _ _ _ _ _ _).
Qed.

End search_paths_facts.

Lemma search_paths_unknown_waypoint_witness :
  exists w, w ∈ ["A"; "Z"] /\ (w ∉ node_names arch_ab) /\
    search_paths no_path_found ["A"; "Z"] (Some 3) None None arch_ab =
      (inl (ItemNotFoundError ("Failed to find node. " ++ w)), arch_ab, []).
Proof.
  apply (search_paths_unknown_waypoint no_path_found arch_ab ["A"; "Z"] (Some 3) None None).
  exists "Z". split.
  - apply (bool_decide_unpack _). vm_compute. exact I.
  - apply (bool_decide_unpack _). vm_compute. exact I.
Defined.

Lemma search_paths_falsy_depth_witness :
  search_paths no_path_found ["A"; "B"] (Some 0) None None arch_ab =
    (inr [], arch_ab, [Searched ["A"; "B"] 15; Printed (msg_search_completed 15)]).
Proof.
  apply (proj2 (proj2 (search_paths_falsy_depth no_path_found arch_ab ["A"; "B"] None None))).
  apply (bool_decide_unpack _). vm_compute. exact I.
Defined.

(** ** ContextUpdater *)

Lemma get_order_is (stored : option (option Z)) (n : Z) :
  get_order stored = Some n <-> order_is stored n.
Proof.
  unfold get_order, order_is. destruct stored as [[m|]|]; simpl.
  - split; [intros [= ->]; by left|]. intros [[= ->]|[? _]]; done.
  - split; [done|]. intros [?|[? _]]; done.
  - split; [intros [= <-]; by right|]. intros [?|[_ ->]]; done.
Qed.

Lemma full_key_matches (c : context_dict) (sub_topic : string) (sub_order : Z)
    (pub_topic : string) (pub_order : Z) :
  full_key c = (Some sub_topic, Some sub_order, Some pub_topic, Some pub_order,
                "callback_chain")
  <-> key_matches c sub_topic sub_order pub_topic pub_order.
Proof.
  unfold full_key, key_matches. rewrite <- !get_order_is. split.
  - intros [= -> -> -> -> ->]. done.
  - intros (-> & -> & -> & -> & ->). done.
Qed.

(** C7. [remove_callback_chain] keeps the node and gives back the records
    there were, in their order and as often as they occurred, without those
    that are the callback chain of the given sub topic, sub order, pub topic
    and pub order (a record that holds no order bears order 0). It drops
    exactly these, and so keeps every record of another type, whatever its
    topics, and every callback chain of another order. *)
Theorem remove_callback_chain_exact (u : ContextUpdater)
    (sub_topic : string) (sub_order : Z) (pub_topic : string) (pub_order : Z) :
  let u' := remove_callback_chain sub_topic sub_order pub_topic pub_order u in
  _node u' = _node u /\
  get_message_contexts u' =
    filter (fun c => ~ key_matches c sub_topic sub_order pub_topic pub_order)
           (get_message_contexts u) /\
  get_message_contexts u' `sublist_of` get_message_contexts u /\
  (forall c, c ∈ get_message_contexts u' <->
             c ∈ get_message_contexts u /\
             ~ key_matches c sub_topic sub_order pub_topic pub_order) /\
  (forall c, c ∈ get_message_contexts u -> context_type c <> "callback_chain" ->
             c ∈ get_message_contexts u').
Proof.
  simpl. unfold get_message_contexts, remove_callback_chain. simpl.
  split; [done|]. split; [|split; [apply sublist_filter|split]].
  - apply list_filter_iff. intros c. by rewrite full_key_matches.
  - intros c. rewrite list_elem_of_filter, full_key_matches. tauto.
  - intros c Hc Hty. rewrite list_elem_of_filter, full_key_matches.
    split; [|done]. intros (_ & _ & _ & _ & H). done.
Qed.

Lemma remove_callback_chain_exact_witness :
  context_of "callback_chain" 1
    ∈ get_message_contexts (remove_callback_chain "/in" 0 "/out" 0 updater_in_out) /\
  context_of "use_latest_message" 0
    ∈ get_message_contexts (remove_callback_chain "/in" 0 "/out" 0 updater_in_out) /\
  (context_of "callback_chain" 0
    ∉ get_message_contexts (remove_callback_chain "/in" 0 "/out" 0 updater_in_out)).
Proof.
  pose proof (remove_callback_chain_exact updater_in_out "/in" 0 "/out" 0)
    as (_ & _ & _ & Hiff & Hother).
  split; [|split].
  - apply Hiff. split.
    + apply (bool_decide_unpack _). vm_compute. exact I.
    + apply (bool_decide_unpack _). vm_compute. exact I.
  - apply Hother.
    + apply (bool_decide_unpack _). vm_compute. exact I.
    + discriminate.
  - intros Hin. apply Hiff in Hin as [_ Hno]. apply Hno.
    unfold key_matches, order_is. simpl. repeat split; auto.
Defined.

(** ** DiffArchitecture *)

(** C8. The topic names only the left architecture has and those only the
    right one has change places, as sets, when the two architectures do; the
    first of them is the set of topic names of the left architecture that
    the right one lacks. *)
Theorem diff_topic_names_swap (left_arch right_arch : Architecture) :
  (list_to_set (diff_topic_names left_arch right_arch).1 : gset string)
    = list_to_set (diff_topic_names right_arch left_arch).2 /\
  (list_to_set (diff_topic_names left_arch right_arch).2 : gset string)
    = list_to_set (diff_topic_names right_arch left_arch).1 /\
  (forall t, t ∈ (diff_topic_names left_arch right_arch).1 <->
             t ∈ topic_names left_arch /\ t ∉ topic_names right_arch).
Proof.
  unfold diff_topic_names. simpl.
  rewrite !list_to_set_elements_L.
  split; [|split].
  - apply set_eq. intros t.
    rewrite !elem_of_difference, !elem_of_intersection. tauto.
  - apply set_eq. intros t.
    rewrite !elem_of_difference, !elem_of_intersection. tauto.
  - intros t.
    rewrite elem_of_elements, elem_of_difference, elem_of_intersection,
      !elem_of_list_to_set.
    tauto.
Qed.

(** ** [_verify] *)

Section Counter_facts.
Context {K : Type} `{EqDecision K}.








End Counter_facts.


Lemma elem_of_concat {A} (x : A) (ls : list (list A)) :
  x ∈ concat ls <-> exists l, x ∈ l /\ l ∈ ls.
Proof.
  induction ls as [|l0 ls IH]; simpl.
  - split; [by intros ?%elem_of_nil|]. by intros (l & _ & ?%elem_of_nil).
  - rewrite elem_of_app, IH. split.
    + intros [H|(l & Hx & Hl)]; [exists l0|exists l]; split; try done;
        [by left|by right].
    + intros (l & Hx & Hl). apply elem_of_cons in Hl as [->|Hl]; [by left|].
      right. by exists l.
Qed.









(** ** [update_message_context] *)

Section update_message_context_facts.
Variable search_node_paths :
  NodeStruct -> list context_dict -> Z -> error + list NodePathStruct.
Variables (node : NodeStruct) (context_type' sub_topic pub_topic : string).

Hypothesis no_context :
  forall c, c ∈ omap message_context (paths node) ->
    ~ (subscription_topic_name c = Some sub_topic /\
       publisher_topic_name c = Some pub_topic).
Hypothesis no_node_path_of_pair :
  forall p, p ∈ paths node ->
    ~ (subscribe_topic_name p = Some sub_topic /\ publish_topic_name p = Some pub_topic).

Lemma overwrite_nothing (cs : list context_dict) :
  (forall c, c ∈ cs ->
     ~ (subscription_topic_name c = Some sub_topic /\
        publisher_topic_name c = Some pub_topic)) ->
  map (overwrite_context_type context_type' sub_topic pub_topic) cs = cs.
Proof.
  induction cs as [|c cs IH]; intros Hno; simpl; [done|].
  rewrite IH by (intros c' Hc'; apply Hno; by right).
  f_equal. unfold overwrite_context_type. case_bool_decide as Heq; [|done].
  exfalso. apply (Hno c); [by left|]. by simplify_eq.
Qed.

Lemma append_nothing (ps : list NodePathStruct) (cs : list context_dict) :
  (forall p, p ∈ ps ->
     ~ (subscribe_topic_name p = Some sub_topic /\ publish_topic_name p = Some pub_topic)) ->
  foldl (append_context context_type' sub_topic pub_topic) cs ps = cs.
Proof.
  induction ps as [|p ps IH]; intros Hno; simpl; [done|].
  assert (append_context context_type' sub_topic pub_topic cs p = cs) as ->.
  { unfold append_context. destruct (message_context p); [done|].
    case_bool_decide as Heq; [|done].
    exfalso. apply (Hno p); [by left|]. by simplify_eq. }
  apply IH. intros p' Hp'. apply Hno. by right.
Qed.

Lemma ContextUpdater_update_nothing :
  ContextUpdater_update_message_context context_type' sub_topic pub_topic
    (ContextUpdater_init node) = ContextUpdater_init node.
Proof.
  unfold ContextUpdater_update_message_context, ContextUpdater_init. simpl.
  by rewrite overwrite_nothing, append_nothing.
Qed.

(** C6, as the code has it. With no context and no node path of the topic
    pair, [ContextUpdater.update_message_context] changes nothing and raises
    nothing. [Architecture.update_message_context] on that node raises
    [ItemNotFoundError], leaving the architecture as it was, when the node
    does not publish the one topic or does not subscribe to the other;
    otherwise it hands the unchanged contexts to the loader's path
    derivation and stores the node paths that come back. *)
Theorem update_message_context_no_match (a : Architecture) (i : nat) (name : string) :
  find_one_at (fun x => bool_decide (node_name x = name)) (_nodes a) = inr (i, node) ->
  get_message_contexts
    (ContextUpdater_update_message_context context_type' sub_topic pub_topic
       (ContextUpdater_init node))
    = get_message_contexts (ContextUpdater_init node) /\
  update_message_context search_node_paths name context_type' sub_topic pub_topic a =
    if negb (bool_decide (pub_topic ∈ publish_topic_names node)) then
      (inl (ItemNotFoundError "{pub_topic_name} is not found in {node_name}"), a, [])
    else if negb (bool_decide (sub_topic ∈ subscribe_topic_names node)) then
      (inl (ItemNotFoundError "{sub_topic_name} is not found in {node_name}"), a, [])
    else
      match search_node_paths node (omap message_context (paths node))
              (_max_callback_construction_order_on_path_searching a) with
      | inl e => (inl e, a, [])
      | inr node_paths =>
          (inr tt, set_nodes (<[i := update_node_path node_paths node]> (_nodes a)) a, [])
      end.
Proof.
  intros Hfound. split; [by rewrite ContextUpdater_update_nothing|].
  unfold update_message_context, bind, get. rewrite Hfound.
  unfold lift, ret. cbn [fst snd].
  destruct (negb (bool_decide (pub_topic ∈ publish_topic_names node))); [done|].
  destruct (negb (bool_decide (sub_topic ∈ subscribe_topic_names node))); [done|].
  rewrite ContextUpdater_update_nothing. unfold get_message_contexts. simpl.
  by destruct (search_node_paths _ _ _).
Qed.

End update_message_context_facts.

Lemma update_message_context_no_match_witness :
  update_message_context no_node_path "A" "callback_chain" "/in" "/out" arch_in_out
    = (inr tt, arch_in_out, []).
Proof.
  apply (proj2 (update_message_context_no_match
                  no_node_path node_in_out "callback_chain" "/in" "/out"
                  ltac:(intros c Hc; vm_compute in Hc; by apply elem_of_nil in Hc)
                  ltac:(intros p Hp; vm_compute in Hp; by apply elem_of_nil in Hp)
                  arch_in_out 0%nat "A" eq_refl)).
Defined.

(** C6, as the spec has it, fails: node [A] exists and has neither a context
    nor a node path of the pair [/in], [/out], yet the call raises. *)
Lemma update_message_context_raises :
  node_names arch_ab = ["A"; "B"] /\
  paths (named_node "A") = [] /\
  update_message_context no_node_path "A" "callback_chain" "/in" "/out" arch_ab
    = (inl (ItemNotFoundError "{pub_topic_name} is not found in {node_name}"),
       arch_ab, []).
Proof. done. Qed.

(** ** Uniqueness of names *)

Section names_facts.
Context {A : Type} (key : A -> option string).

Lemma elem_of_omap_delete (y : string) (i : nat) (l : list A) :
  y ∈ omap key (delete i l) -> y ∈ omap key l.
Proof.
  revert i. induction l as [|x l IH]; intros i; [by destruct i|].
  destruct i as [|i]; simpl.
  - destruct (key x); [by right|done].
  - destruct (key x); [|by apply IH].
    rewrite !elem_of_cons. intros [->|H]; [by left|right; by eapply IH].
Qed.

Lemma NoDup_omap_delete (i : nat) (l : list A) :
  NoDup (omap key l) -> NoDup (omap key (delete i l)).
Proof.
  revert i. induction l as [|x l IH]; intros i; [by destruct i|].
  destruct i as [|i]; simpl.
  - destruct (key x); [by intros ?%NoDup_cons_1_2|done].
  - destruct (key x) as [k|]; [|by apply IH].
    rewrite !NoDup_cons. intros [Hk Hnd]. split; [|by apply IH].
    intros Hin. by apply Hk, (elem_of_omap_delete _ i).
Qed.

Lemma elem_of_omap_alter (f : A -> A) (dst y : string) (i : nat) (l : list A) :
  (forall x, key (f x) = Some dst) ->
  y ∈ omap key (alter f i l) -> y = dst \/ y ∈ omap key l.
Proof.
  intros Hf. revert i. induction l as [|x l IH]; intros i; [by right|].
  destruct i as [|i]; simpl.
  - rewrite Hf, elem_of_cons. intros [->|H]; [by left|right].
    destruct (key x); [by right|done].
  - destruct (key x); [|by apply IH].
    rewrite !elem_of_cons. intros [->|H]; [right; by left|].
    destruct (IH _ H); [by left|right; by right].
Qed.

Lemma NoDup_omap_alter (f : A -> A) (dst : string) (i : nat) (l : list A) :
  (forall x, key (f x) = Some dst) ->
  dst ∉ omap key l -> NoDup (omap key l) -> NoDup (omap key (alter f i l)).
Proof.
  intros Hf. revert i. induction l as [|x l IH]; intros i Hdst Hnd; [done|].
  destruct i as [|i]; simpl in *.
  - rewrite Hf. destruct (key x).
    + apply NoDup_cons in Hnd as [_ Hnd]. apply NoDup_cons. split; [|done].
      intros H. apply Hdst. by right.
    + by apply NoDup_cons.
  - destruct (key x) as [k|]; [|by apply IH].
    apply NoDup_cons in Hnd as [Hk Hnd]. apply NoDup_cons. split.
    + intros [->|H]%(elem_of_omap_alter f dst); [|done..].
      apply Hdst. by left.
    + apply IH; [|done]. intros H. apply Hdst. by right.
Qed.

End names_facts.

Lemma omap_Some_map {A} (g : A -> string) (l : list A) :
  omap (fun x => Some (g x)) l = map g l.
Proof. induction l as [|x l IH]; simpl; [done|]. by f_equal. Qed.

Lemma NoDup_map_renamed (src dst : string) (l : list string) :
  dst ∉ l -> NoDup l -> NoDup (map (renamed src dst) l).
Proof.
  intros Hdst Hnd. apply (NoDup_fmap_2_strong (renamed src dst)); [|done].
  unfold renamed. intros x y Hx Hy.
  repeat case_bool_decide; intros; subst; done.
Qed.

Lemma map_rename_node_names (src dst : string) (ns : list NodeStruct) :
  map node_name (map (NodeStruct_rename_node src dst) ns)
  = map (renamed src dst) (map node_name ns).
Proof. induction ns as [|n ns IH]; simpl; [done|]. by rewrite IH. Qed.

Lemma map_rename_node_executor_names (src dst : string) (es : list ExecutorStruct) :
  map executor_name (map (ExecutorStruct_rename_node src dst) es)
  = map executor_name es.
Proof. induction es as [|e es IH]; simpl; [done|]. by rewrite IH. Qed.

Lemma add_path_frame (a : Architecture) (n : string) (p : PathStructValue) :
  _nodes (state_of (add_path n p a)) = _nodes a /\
  _executors (state_of (add_path n p a)) = _executors a /\
  (_paths (state_of (add_path n p a)) = _paths a \/
   (n ∉ path_names a) /\
   exists c, _paths (state_of (add_path n p a))
             = (_paths a ++ [{| path_name := Some n; child := c |}])%list).
Proof.
  unfold add_path, bind, get. case_bool_decide as Hn; [by auto|].
  destruct (resolve_children a (pv_child p)) as [e|c]; simpl; [by auto|].
  split; [done|]. split; [done|]. right. split; [done|]. by exists c.
Qed.

Lemma remove_path_frame (a : Architecture) (n : string) :
  _nodes (state_of (remove_path n a)) = _nodes a /\
  _executors (state_of (remove_path n a)) = _executors a /\
  (_paths (state_of (remove_path n a)) = _paths a \/
   exists i, _paths (state_of (remove_path n a)) = delete i (_paths a)).
Proof.
  unfold remove_path, bind, get. case_bool_decide as Hn; [|by auto].
  destruct (last_index_named n (_paths a)) as [i|]; simpl; [|by auto].
  split; [done|]. split; [done|]. right. by exists i.
Qed.

Lemma add_path_keeps_paths (a : Architecture) (n : string) (p : PathStructValue) :
  NoDup (omap path_name (_paths a)) ->
  NoDup (omap path_name (_paths (state_of (add_path n p a)))).
Proof.
  intros Hnd. destruct (add_path_frame a n p) as (_ & _ & [->|(Hn & c & ->)]); [done|].
  rewrite omap_app. simpl. apply NoDup_app. split; [done|]. split; [|apply NoDup_singleton].
  intros x Hx ->%list_elem_of_singleton. apply Hn.
  unfold path_names. by apply elem_of_sorted.
Qed.

Lemma remove_path_keeps_paths (a : Architecture) (n : string) :
  NoDup (omap path_name (_paths a)) ->
  NoDup (omap path_name (_paths (state_of (remove_path n a)))).
Proof.
  intros Hnd. destruct (remove_path_frame a n) as (_ & _ & [->|(i & ->)]); [done|].
  by apply NoDup_omap_delete.
Qed.

Lemma update_path_frame (a : Architecture) (n : string) (p : PathStructValue) :
  _nodes (state_of (update_path n p a)) = _nodes a /\
  _executors (state_of (update_path n p a)) = _executors a /\
  (NoDup (omap path_name (_paths a)) ->
   NoDup (omap path_name (_paths (state_of (update_path n p a))))).
Proof.
  unfold update_path. destruct (pv_path_name p) as [own|]; [|done].
  unfold bind.
  pose proof (remove_path_frame a own) as (Hn1 & He1 & _).
  pose proof (remove_path_keeps_paths a own) as Hp1.
  destruct (remove_path own a) as [[[e|[]] a1] l1]; [done|].
  unfold state_of in Hn1, He1, Hp1. simpl in Hn1, He1, Hp1.
  pose proof (add_path_frame a1 n p) as (Hn2 & He2 & _).
  pose proof (add_path_keeps_paths a1 n p) as Hp2.
  destruct (add_path n p a1) as [[r a2] l2].
  unfold state_of in *. simpl in *.
  split; [congruence|]. split; [congruence|]. auto.
Qed.

Lemma rename_node_frame (a : Architecture) (src dst : string) :
  _paths (state_of (rename_node src dst a)) = _paths a /\
  _nodes (state_of (rename_node src dst a))
    = map (NodeStruct_rename_node src dst) (_nodes a) /\
  _executors (state_of (rename_node src dst a))
    = map (ExecutorStruct_rename_node src dst) (_executors a).
Proof. done. Qed.

Section mutation_facts.
Variable similar : string -> list (option string) -> option nat.

Lemma rename_path_frame (a : Architecture) (src dst : string) :
  _nodes (state_of (rename_path similar src dst a)) = _nodes a /\
  _executors (state_of (rename_path similar src dst a)) = _executors a /\
  (_paths (state_of (rename_path similar src dst a)) = _paths a \/
   exists i, _paths (state_of (rename_path similar src dst a))
             = alter (set_path_name dst) i (_paths a)).
Proof.
  unfold rename_path, bind, get.
  destruct (find_similar_one similar src (_paths a) path_name) as [e|i]; simpl;
    [by auto|].
  split; [done|]. split; [done|]. right. by exists i.
Qed.

Lemma rename_executor_frame (a : Architecture) (src dst : string) :
  _nodes (state_of (rename_executor similar src dst a)) = _nodes a /\
  _paths (state_of (rename_executor similar src dst a)) = _paths a /\
  (_executors (state_of (rename_executor similar src dst a)) = _executors a \/
   exists i, _executors (state_of (rename_executor similar src dst a))
             = alter (set_executor_name dst) i (_executors a)).
Proof.
  unfold rename_executor, bind, get.
  destruct (find_similar_one similar src (_executors a) _) as [e|i]; simpl;
    [by auto|].
  split; [done|]. split; [done|]. right. by exists i.
Qed.

(** One call keeps the path names distinct. *)
Lemma step_keeps_paths (m : mutation) (a : Architecture) :
  path_dst_unused m a = true ->
  NoDup (path_names a) -> NoDup (path_names (state_of (apply_mutation similar m a))).
Proof.
  unfold path_names. rewrite !NoDup_sorted. intros Hdst Hnd.
  destruct m as [n p|n|n p|src dst|src dst|src dst]; simpl in *.
  - by apply add_path_keeps_paths.
  - by apply remove_path_keeps_paths.
  - by apply update_path_frame.
  - destruct (rename_path_frame a src dst) as (_ & _ & [->|(i & ->)]); [done|].
    apply (NoDup_omap_alter _ _ dst); [done| |done].
    apply negb_true_iff, bool_decide_eq_false in Hdst.
    intros H. apply Hdst. unfold path_names. by apply elem_of_sorted.
  - done.
  - by destruct (rename_executor_frame a src dst) as (_ & -> & _).
Qed.

(** One call keeps the node names distinct. *)
Lemma step_keeps_nodes (m : mutation) (a : Architecture) :
  node_dst_unused m a = true ->
  NoDup (node_names a) -> NoDup (node_names (state_of (apply_mutation similar m a))).
Proof.
  unfold node_names. rewrite !NoDup_sorted. intros Hdst Hnd.
  destruct m as [n p|n|n p|src dst|src dst|src dst]; simpl in *.
  - by destruct (add_path_frame a n p) as (-> & _).
  - by destruct (remove_path_frame a n) as (-> & _).
  - by destruct (update_path_frame a n p) as (-> & _).
  - by destruct (rename_path_frame a src dst) as (-> & _).
  - rewrite map_rename_node_names. apply NoDup_map_renamed; [|done].
    apply negb_true_iff, bool_decide_eq_false in Hdst.
    intros H. apply Hdst. unfold node_names. by apply elem_of_sorted.
  - by destruct (rename_executor_frame a src dst) as (-> & _).
Qed.

(** One call keeps the executor names distinct. *)
Lemma step_keeps_executors (m : mutation) (a : Architecture) :
  executor_dst_unused m a = true ->
  NoDup (executor_names a) ->
  NoDup (executor_names (state_of (apply_mutation similar m a))).
Proof.
  unfold executor_names. rewrite !NoDup_sorted. intros Hdst Hnd.
  destruct m as [n p|n|n p|src dst|src dst|src dst]; simpl in *.
  - by destruct (add_path_frame a n p) as (_ & -> & _).
  - by destruct (remove_path_frame a n) as (_ & -> & _).
  - by destruct (update_path_frame a n p) as (_ & -> & _).
  - by destruct (rename_path_frame a src dst) as (_ & -> & _).
  - by rewrite map_rename_node_executor_names.
  - destruct (rename_executor_frame a src dst) as (_ & _ & [->|(i & ->)]); [done|].
    rewrite <- omap_Some_map in Hnd |- *.
    apply (NoDup_omap_alter _ _ dst); [done| |done].
    apply negb_true_iff, bool_decide_eq_false in Hdst.
    intros H. apply Hdst. unfold executor_names. apply elem_of_sorted.
    by rewrite <- omap_Some_map.
Qed.

Lemma run_keeps_nodes (ms : list mutation) (a : Architecture) :
  NoDup (node_names a) -> node_renames_unused similar ms a = true ->
  NoDup (node_names (run similar ms a)).
Proof.
  revert a. induction ms as [|m ms IH]; intros a Hnd Hms; simpl in *; [done|].
  apply andb_true_iff in Hms as [Hm Hms].
  apply IH; [by apply step_keeps_nodes|done].
Qed.

(** C2, as the code has it. Pairwise distinct path names, node names and
    executor names stay pairwise distinct along any sequence of [add_path],
    [remove_path], [update_path], [rename_path], [rename_node] and
    [rename_executor] calls, raising or not, in which every rename takes a
    new name that is not in use when it is called. The renames themselves
    check nothing. *)
Theorem mutations_keep_names_unique (ms : list mutation) (a : Architecture) :
  unique_names a -> renames_unused similar ms a = true ->
  unique_names (run similar ms a).
Proof.
  revert a. induction ms as [|m ms IH]; intros a Hu Hms; simpl in *; [done|].
  apply andb_true_iff in Hms as [Hm Hms]. unfold dst_unused in Hm.
  apply andb_true_iff in Hm as [Hm He]. apply andb_true_iff in Hm as [Hp Hn].
  destruct Hu as (Hup & Hun & Hue).
  apply IH; [|done]. split; [|split].
  - by apply step_keeps_paths.
  - by apply step_keeps_nodes.
  - by apply step_keeps_executors.
Qed.

(** C3, as the code has it. After any sequence of mutations [node_names] is
    sorted, is a rearrangement of the names of the owned nodes and so holds
    the same names, and is free of duplicates exactly when the owned nodes
    bear distinct names: it is, when they were distinct at the start and no
    [rename_node] of the sequence took a name that was in use. *)
Theorem node_names_sorted_same_names (ms : list mutation) (a : Architecture) :
  let a' := run similar ms a in
  Sorted (fun x y => String.leb x y = true) (node_names a') /\
  node_names a' ≡ₚ map node_name (_nodes a') /\
  (forall n, n ∈ node_names a' <-> exists node, node ∈ _nodes a' /\ node_name node = n) /\
  (NoDup (node_names a') <-> NoDup (map node_name (_nodes a'))) /\
  (NoDup (node_names a) -> node_renames_unused similar ms a = true ->
   NoDup (node_names a')).
Proof.
  simpl. unfold node_names at 1 2 3 4.
  split; [apply (sorted_by_Sorted (fun s => s))|].
  split; [apply sorted_Permutation|].
  split; [|split; [apply NoDup_sorted|apply run_keeps_nodes]].
  intros n. rewrite elem_of_sorted, list_elem_of_fmap. split.
  - intros (node & -> & Hin). by exists node.
  - intros (node & Hin & <-). by exists node.
Qed.

End mutation_facts.

Lemma mutations_keep_names_unique_witness :
  unique_names
    (run no_similar
       [AddPath "c" path_value_a; RenamePath "a" "d"; RenameNode "A" "C"; RemovePath "b"]
       arch_ab).
Proof.
  apply (mutations_keep_names_unique no_similar).
  - unfold unique_names. apply (bool_decide_unpack _). vm_compute. exact I.
  - vm_compute. reflexivity.
Defined.

Lemma node_names_sorted_same_names_witness :
  NoDup (node_names (run no_similar [RenameNode "A" "C"] arch_ab)).
Proof.
  apply (proj2 (proj2 (proj2 (proj2
           (node_names_sorted_same_names no_similar [RenameNode "A" "C"] arch_ab))))).
  - apply (bool_decide_unpack _). vm_compute. exact I.
  - vm_compute. reflexivity.
Defined.

(** C2, as the spec has it, fails: the names are distinct, [rename_path]
    gives path [a] the name of path [b], and two stored paths are named [b]. *)
Lemma rename_path_duplicates_name :
  unique_names arch_ab /\
  rename_path no_similar "a" "b" arch_ab
    = (inr tt, arch_of [named_node "A"; named_node "B"] [named_path "b"; named_path "b"],
       []) /\
  path_names (run no_similar [RenamePath "a" "b"] arch_ab) = ["b"; "b"] /\
  ~ unique_names (run no_similar [RenamePath "a" "b"] arch_ab).
Proof.
  split; [|split; [|split]].
  - unfold unique_names. apply (bool_decide_unpack _). vm_compute. exact I.
  - reflexivity.
  - reflexivity.
  - unfold unique_names. apply (bool_decide_unpack _). vm_compute. exact I.
Qed.

(** C3, as the spec has it, fails: the node names are distinct,
    [rename_node] gives node [A] the name of node [B], and [node_names]
    lists [B] twice. *)
Lemma rename_node_duplicates_name :
  NoDup (node_names arch_ab) /\
  node_names (run no_similar [RenameNode "A" "B"] arch_ab) = ["B"; "B"] /\
  ~ NoDup (node_names (run no_similar [RenameNode "A" "B"] arch_ab)).
Proof.
  split; [|split].
  - apply (bool_decide_unpack _). vm_compute. exact I.
  - reflexivity.
  - apply (bool_decide_unpack _). vm_compute. exact I.
Qed.

(** ** Lookups *)

Lemma filter_imap_snd {A} (cond : A -> bool) (g : nat -> A -> nat * A) (l : list A) :
  (forall i x, (g i x).2 = x) ->
  (filter (fun p => cond p.2 = true) (imap g l)).*2 = filter (fun x => cond x = true) l.
Proof.
  revert g. induction l as [|x l IH]; intros g Hg; [done|].
  simpl. rewrite !filter_cons, Hg.
  destruct (decide (cond x = true)); simpl; rewrite ?Hg, IH; try done;
    by intros i y; apply Hg.
Qed.

Lemma find_one_filter {A} (cond : A -> bool) (l : list A) :
  find_one cond l =
    match filter (fun x => cond x = true) l with
    | [] => inl (ItemNotFoundError "")
    | [x] => inr x
    | _ :: _ :: _ => inl (MultipleItemFoundError "")
    end.
Proof.
  unfold find_one, find_one_at.
  rewrite <- (filter_imap_snd cond pair l) by done.
  by destruct (filter _ (imap pair l)) as [|p [|q r]].
Qed.

Lemma find_one_inr {A} (cond : A -> bool) (l : list A) (x : A) :
  find_one cond l = inr x -> x ∈ l /\ cond x = true.
Proof.
  rewrite find_one_filter. intros H.
  assert (Hx : x ∈ filter (fun x => cond x = true) l).
  { destruct (filter _ l) as [|y [|z r]]; simplify_eq. by left. }
  apply list_elem_of_filter in Hx. tauto.
Qed.

Lemma find_one_at_inr {A} (cond : A -> bool) (l : list A) (i : nat) (x : A) :
  find_one_at cond l = inr (i, x) -> l !! i = Some x /\ cond x = true.
Proof.
  unfold find_one_at. intros H.
  assert (Hx : (i, x) ∈ filter (fun p => cond p.2 = true) (imap pair l)).
  { destruct (filter _ (imap pair l)) as [|y [|z r]]; simplify_eq. by left. }
  apply list_elem_of_filter in Hx as [Hc Hx].
  apply elem_of_lookup_imap in Hx as (j & y & Heq & Hl). by simplify_eq.
Qed.

Lemma set_paths_same (a : Architecture) : set_paths (_paths a) a = a.
Proof. by destruct a. Qed.

(** ** More on named paths *)

Lemma resolve_child_resolves (a : Architecture) (c : child_value) (x : path_child) :
  resolve_child a c = inr x -> child_resolves a c x.
Proof.
  destruct c as [c|c|]; simpl; [| |done].
  - destruct (find_one (is_target_node c) (_nodes a)) as [e|node] eqn:Hnode; [done|].
    destruct (find_one (is_target_node_path c) (paths node)) as [e|np] eqn:Hnp; [done|].
    intros [= <-]. apply find_one_inr in Hnode as [Hin Hname].
    apply find_one_inr in Hnp as [Hinp Hkey].
    exists node. unfold is_target_node in Hname.
    apply bool_decide_eq_true in Hname. done.
  - destruct (find_one (is_target_comm c) (_communications a)) as [e|comm] eqn:Hc; [done|].
    intros [= <-]. by apply find_one_inr in Hc.
Qed.

Lemma resolve_children_resolves (a : Architecture) (cs : list child_value)
    (xs : list path_child) :
  resolve_children a cs = inr xs -> Forall2 (child_resolves a) cs xs.
Proof.
  revert xs. induction cs as [|c cs IH]; intros xs; simpl.
  - intros [= <-]. constructor.
  - destruct (resolve_child a c) as [e|x] eqn:Hc; [done|].
    destruct (resolve_children a cs) as [e|xs'] eqn:Hcs; [done|].
    intros [= <-]. constructor; [by apply resolve_child_resolves|by apply IH].
Qed.

Lemma add_path_cases (a : Architecture) (n : string) (p : PathStructValue) :
  (exists e, add_path n p a = (inl e, a, [])) \/
  (exists children,
      (n ∉ path_names a) /\
      resolve_children a (pv_child p) = inr children /\
      add_path n p a =
        (inr tt,
         set_paths (_paths a ++ [{| path_name := Some n; child := children |}])%list a,
         [])).
Proof.
  unfold add_path, bind, get. case_bool_decide as Hn; [left; by eexists|].
  destruct (resolve_children a (pv_child p)) as [e|children] eqn:Hr; simpl.
  - left. by eexists.
  - right. by exists children.
Qed.

(** X1. [add_path] is all or nothing. Either it raises and the architecture
    is as before, or the name was free, every requested child was matched
    with a node path of the named node or with a communication of the
    architecture that agrees with it on the compared key, and exactly one
    path of that name, holding the matched children in order, is appended to
    the stored paths; [path_names] gains that name and loses none. *)
Theorem add_path_all_or_nothing (a : Architecture) (n : string) (p : PathStructValue) :
  (exists e, add_path n p a = (inl e, a, [])) \/
  (exists children,
      (n ∉ path_names a) /\
      Forall2 (child_resolves a) (pv_child p) children /\
      add_path n p a =
        (inr tt,
         set_paths (_paths a ++ [{| path_name := Some n; child := children |}])%list a,
         []) /\
      path_names (state_of (add_path n p a)) ≡ₚ n :: path_names a).
Proof.
  destruct (add_path_cases a n p) as [Hl|(children & Hn & Hr & Heq)]; [by left|].
  right. exists children. split; [done|].
  split; [by apply resolve_children_resolves|]. split; [done|].
  rewrite Heq. unfold path_names, state_of. simpl.
  rewrite !sorted_Permutation, omap_app. simpl.
  by rewrite <- Permutation_cons_append.
Qed.

(** X2. A path value with a child that is neither a node path nor a
    communication is never stored: [add_path] raises and the architecture is
    as before. *)
Theorem add_path_unsupported_child (a : Architecture) (n : string) (p : PathStructValue) :
  OtherValue ∈ pv_child p ->
  exists e, add_path n p a = (inl e, a, []).
Proof.
  intros Hin. destruct (add_path_cases a n p) as [Hl|(children & _ & Hr & _)]; [done|].
  exfalso. apply resolve_children_resolves in Hr.
  revert Hin. induction Hr as [|c x cs xs Hc _ IH]; [by intros ?%elem_of_nil|].
  intros [<-|Hin]%elem_of_cons; [|by apply IH].
  by destruct x.
Qed.

Lemma add_path_unsupported_child_witness :
  exists e,
    add_path "c" {| pv_path_name := None; pv_child := [OtherValue] |} arch_ab
    = (inl e, arch_ab, []).
Proof.
  apply add_path_unsupported_child. simpl. apply list_elem_of_here.
Defined.

Lemma last_index_named_snoc (name : string) (ps : list PathStruct) (p : PathStruct) :
  last_index_named name (ps ++ [p]) =
    if bool_decide (path_name p = Some name) then Some (length ps)
    else last_index_named name ps.
Proof.
  unfold last_index_named. rewrite imap_app, foldl_app. simpl.
  by rewrite Nat.add_0_r.
Qed.

Lemma last_index_named_spec (name : string) (ps : list PathStruct) :
  match last_index_named name ps with
  | Some i =>
      exists p, ps !! i = Some p /\ path_name p = Some name /\
        forall j q, (i < j)%nat -> ps !! j = Some q -> path_name q <> Some name
  | None => forall p, p ∈ ps -> path_name p <> Some name
  end.
Proof.
  induction ps as [|p ps IH] using rev_ind.
  - intros p Hp. by apply elem_of_nil in Hp.
  - rewrite last_index_named_snoc. case_bool_decide as Hp.
    + exists p. split; [by rewrite lookup_app_r, Nat.sub_diag|]. split; [done|].
      intros j q Hj Hq. apply lookup_lt_Some in Hq.
      rewrite length_app in Hq. simpl in Hq. lia.
    + destruct (last_index_named name ps) as [i|].
      * destruct IH as (q & Hq & Hname & Hlater). exists q.
        split; [by apply lookup_app_l_Some|]. split; [done|].
        intros j r Hj Hr. destruct (decide (j < length ps)%nat) as [Hlt|Hge].
        -- rewrite lookup_app_l in Hr by done. by eapply Hlater.
        -- rewrite lookup_app_r in Hr by lia.
           destruct (j - length ps)%nat; simpl in Hr; by simplify_eq.
      * intros q [Hq|Hq%list_elem_of_singleton]%elem_of_app; [by apply IH|by subst].
Qed.

Lemma omap_delete_Permutation {A} (key : A -> option string) (name : string)
    (i : nat) (x : A) (l : list A) :
  l !! i = Some x -> key x = Some name ->
  omap key l ≡ₚ name :: omap key (delete i l).
Proof.
  revert i. induction l as [|y l IH]; intros i Hi Hx; [done|].
  destruct i as [|i]; simpl in *.
  - simplify_eq. by rewrite Hx.
  - destruct (key y); rewrite (IH i) by done; [apply Permutation_swap|done].
Qed.

Lemma remove_path_present (a : Architecture) (name : string) :
  name ∈ path_names a ->
  exists i p,
    _paths a !! i = Some p /\ path_name p = Some name /\
    (forall j q, (i < j)%nat -> _paths a !! j = Some q -> path_name q <> Some name) /\
    remove_path name a = (inr tt, set_paths (delete i (_paths a)) a, []).
Proof.
  intros Hin. unfold remove_path, bind, get. rewrite bool_decide_eq_true_2 by done.
  pose proof (last_index_named_spec name (_paths a)) as Hspec.
  destruct (last_index_named name (_paths a)) as [i|].
  - destruct Hspec as (p & Hp & Hname & Hlater). by exists i, p.
  - exfalso. unfold path_names in Hin. apply (proj1 (elem_of_sorted _ _)) in Hin.
    apply list_elem_of_omap in Hin as (p & Hp & Hname). by apply (Hspec p).
Qed.

(** X3. [remove_path] returns exactly when the name is among [path_names]
    (else it raises and changes nothing). It then takes out one stored path,
    the last one of that name, and nothing else: [path_names] loses one
    entry of that name. *)
Theorem remove_path_removes_last (a : Architecture) (name : string) :
  (name ∉ path_names a ->
   exists e, remove_path name a = (inl e, a, [])) /\
  (name ∈ path_names a ->
   exists i p,
     _paths a !! i = Some p /\ path_name p = Some name /\
     (forall j q, (i < j)%nat -> _paths a !! j = Some q -> path_name q <> Some name) /\
     remove_path name a = (inr tt, set_paths (delete i (_paths a)) a, []) /\
     path_names a ≡ₚ name :: path_names (state_of (remove_path name a))).
Proof.
  split.
  - intros Hn. rewrite remove_path_absent by done. by eexists.
  - intros Hin. destruct (remove_path_present a name Hin) as (i & p & Hp & Hname & Hl & Heq).
    exists i, p. repeat (split; [done|]). rewrite Heq.
    unfold path_names, state_of. simpl. rewrite !sorted_Permutation.
    by apply (omap_delete_Permutation _ _ i p).
Qed.

Lemma remove_path_removes_last_witness :
  exists i p,
    _paths arch_ab !! i = Some p /\ path_name p = Some "a" /\
    (forall j q, (i < j)%nat -> _paths arch_ab !! j = Some q -> path_name q <> Some "a") /\
    remove_path "a" arch_ab = (inr tt, set_paths (delete i (_paths arch_ab)) arch_ab, []) /\
    path_names arch_ab ≡ₚ "a" :: path_names (state_of (remove_path "a" arch_ab)).
Proof.
  apply (proj2 (remove_path_removes_last arch_ab "a")).
  apply (bool_decide_unpack _). vm_compute. exact I.
Defined.

(** X4. Taking out a path that was just added gives back the architecture:
    after [add_path(n, p)] has returned, [remove_path(n)] returns and the
    architecture is the one before the two calls. *)
Theorem add_path_remove_path (a a1 : Architecture) (n : string) (p : PathStructValue) :
  add_path n p a = (inr tt, a1, []) ->
  remove_path n a1 = (inr tt, a, []).
Proof.
  intros Hadd.
  destruct (add_path_cases a n p) as [[e He]|(children & Hn & _ & Heq)];
    [congruence|].
  rewrite Heq in Hadd. injection Hadd as <-.
  unfold remove_path, bind, get. rewrite bool_decide_eq_true_2.
  - simpl. rewrite last_index_named_snoc, bool_decide_eq_true_2 by done.
    simpl. f_equal. f_equal.
    assert (delete (length (_paths a))
                   (_paths a ++ [{| path_name := Some n; child := children |}])%list
            = _paths a) as ->.
    { rewrite delete_take_drop, take_app_length.
      rewrite drop_ge by (rewrite length_app; simpl; lia). apply app_nil_r. }
    by destruct a.
  - unfold path_names. apply elem_of_sorted. simpl. rewrite omap_app.
    apply elem_of_app. right. simpl. by left.
Qed.

Lemma add_path_remove_path_witness :
  remove_path "c" (arch_of [named_node "A"; named_node "B"]
                           [named_path "a"; named_path "b"; named_path "c"])
  = (inr tt, arch_ab, []).
Proof.
  apply (add_path_remove_path arch_ab _ "c" path_value_a). reflexivity.
Defined.

(** X5. [update_path] is not all or nothing. When the path handed in bears a
    stored name and the name to store it under is another stored name, the
    call raises the duplicate-name error of [add_path], yet the path that
    bore the first name has already been taken out. *)
Theorem update_path_removes_then_raises (a : Architecture) (n own : string)
    (p : PathStructValue) :
  pv_path_name p = Some own -> own ∈ path_names a -> n ∈ path_names a -> n <> own ->
  exists a',
    update_path n p a =
      (inl (InvalidArgumentError "Failed to add named path. Duplicate path name."),
       a', []) /\
    path_names a ≡ₚ own :: path_names a'.
Proof.
  intros Hp Hown Hn Hne.
  destruct (remove_path_present a own Hown) as (i & q & Hq & Hname & _ & Heq).
  exists (set_paths (delete i (_paths a)) a).
  assert (Hperm : path_names a
                  ≡ₚ own :: path_names (set_paths (delete i (_paths a)) a)).
  { unfold path_names. simpl. rewrite !sorted_Permutation.
    by apply (omap_delete_Permutation _ _ i q). }
  split; [|done].
  unfold update_path. rewrite Hp. unfold bind at 1. rewrite Heq.
  unfold add_path, bind, get. rewrite bool_decide_eq_true_2; [done|].
  rewrite Hperm in Hn. by apply elem_of_cons in Hn as [?|?].
Qed.

Lemma update_path_removes_then_raises_witness :
  exists a',
    update_path "b" path_value_a arch_ab =
      (inl (InvalidArgumentError "Failed to add named path. Duplicate path name."),
       a', []) /\
    path_names arch_ab ≡ₚ "a" :: path_names a'.
Proof.
  apply (update_path_removes_then_raises arch_ab "b" "a" path_value_a).
  - reflexivity.
  - apply (bool_decide_unpack _). vm_compute. exact I.
  - apply (bool_decide_unpack _). vm_compute. exact I.
  - discriminate.
Defined.

(** ** Queries *)

Section unique_key.
Context {A : Type} (key : A -> option string) (cond : A -> bool) (n : string).
Hypothesis cond_key : forall x, cond x = true <-> key x = Some n.

Lemma filter_key_absent (l : list A) :
  n ∉ omap key l -> filter (fun x => cond x = true) l = [].
Proof.
  induction l as [|x l IH]; intros Hn; [done|].
  rewrite filter_cons. destruct (decide (cond x = true)) as [Hc|Hc].
  - exfalso. apply Hn. apply cond_key in Hc. simpl. rewrite Hc. by left.
  - apply IH. intros Hin. apply Hn. simpl. destruct (key x); [by right|done].
Qed.

Lemma filter_key_present (l : list A) :
  n ∈ omap key l -> exists x l', filter (fun x => cond x = true) l = x :: l' /\
                                 x ∈ l /\ key x = Some n.
Proof.
  induction l as [|x l IH]; intros Hn; [by apply elem_of_nil in Hn|].
  rewrite filter_cons. destruct (decide (cond x = true)) as [Hc|Hc].
  - exists x, (filter (fun x => cond x = true) l).
    split; [done|]. split; [by left|by apply cond_key].
  - destruct IH as (y & l' & Hf & Hy & Hk).
    + simpl in Hn. destruct (key x) as [k|] eqn:Hk; [|done].
      apply elem_of_cons in Hn as [->|Hn]; [|done].
      exfalso. by apply Hc, cond_key.
    + exists y, l'. split; [done|]. split; [by right|done].
Qed.

Lemma filter_key_unique (l : list A) :
  NoDup (omap key l) -> n ∈ omap key l ->
  exists x, filter (fun x => cond x = true) l = [x] /\ x ∈ l /\ key x = Some n.
Proof.
  induction l as [|x l IH]; intros Hnd Hn; [by apply elem_of_nil in Hn|].
  rewrite filter_cons. simpl in Hnd, Hn.
  destruct (decide (cond x = true)) as [Hc|Hc].
  - exists x. apply cond_key in Hc as Hk. rewrite Hk in Hnd.
    apply NoDup_cons in Hnd as [Hnot _].
    rewrite filter_key_absent by done. split; [done|]. split; [by left|done].
  - destruct IH as (y & Hf & Hy & Hk).
    + destruct (key x); [by apply NoDup_cons in Hnd as [_ ?]|done].
    + destruct (key x) as [k|] eqn:Hk; [|done].
      apply elem_of_cons in Hn as [->|Hn]; [|done].
      exfalso. by apply Hc, cond_key.
    + exists y. split; [done|]. split; [by right|done].
Qed.

End unique_key.

Lemma path_name_cond (n : string) (x : PathStruct) :
  bool_decide (path_name x = Some n) = true <-> path_name x = Some n.
Proof. apply bool_decide_eq_true. Qed.

(** X6. [get_path] raises [InvalidArgumentError], naming the path, for a
    name that is not among [path_names]. For a name that is, it gives the
    value of the one stored path of that name when the stored names are
    pairwise distinct, and never reports the path as not found. *)
Theorem get_path_of_name (a : Architecture) (n : string) :
  (n ∉ path_names a ->
   get_path n a =
     (inl (InvalidArgumentError ("Failed to get named path. " ++ n ++ " not exist.")),
      a, [])) /\
  (n ∈ path_names a -> NoDup (path_names a) ->
   exists p, p ∈ _paths a /\ path_name p = Some n /\
             get_path n a = (inr (PathStruct_to_value p), a, [])) /\
  (n ∈ path_names a ->
   (exists p, p ∈ _paths a /\ path_name p = Some n /\
              get_path n a = (inr (PathStruct_to_value p), a, [])) \/
   get_path n a = (inl (MultipleItemFoundError ""), a, [])).
Proof.
  assert (Hck : forall x : PathStruct,
             bool_decide (path_name x = Some n) = true <-> path_name x = Some n)
    by (intros x; apply bool_decide_eq_true).
  unfold get_path, bind, get. split; [|split].
  - intros Hn. by rewrite bool_decide_eq_false_2.
  - intros Hn Hnd. rewrite bool_decide_eq_true_2 by done.
    unfold path_names in Hn, Hnd.
    rewrite elem_of_sorted in Hn. rewrite NoDup_sorted in Hnd.
    destruct (filter_key_unique path_name _ n Hck (_paths a) Hnd Hn)
      as (p & Hf & Hp & Hk).
    exists p. rewrite find_one_filter, Hf. done.
  - intros Hn. rewrite bool_decide_eq_true_2 by done.
    unfold path_names in Hn. rewrite elem_of_sorted in Hn.
    destruct (filter_key_present path_name _ n Hck (_paths a) Hn)
      as (p & l' & Hf & Hp & Hk).
    rewrite find_one_filter, Hf. destruct l' as [|q l']; [|by right].
    left. by exists p.
Qed.

Lemma get_path_of_name_witness :
  exists p, p ∈ _paths arch_ab /\ path_name p = Some "b" /\
            get_path "b" arch_ab = (inr (PathStruct_to_value p), arch_ab, []).
Proof.
  apply (proj1 (proj2 (get_path_of_name arch_ab "b"))).
  - apply (bool_decide_unpack _). vm_compute. exact I.
  - apply (bool_decide_unpack _). vm_compute. exact I.
Defined.

(** X7. [get_node] raises [ItemNotFoundError] with the message naming the
    node exactly when the name is not among [node_names]; when the node
    names are pairwise distinct it gives the node of that name. *)
Theorem get_node_of_name (a : Architecture) (n : string) :
  (n ∉ node_names a <->
   get_node n a =
     (inl (ItemNotFoundError ("Failed to find node. node_name: " ++ n)), a, [])) /\
  (n ∈ node_names a -> NoDup (node_names a) ->
   exists node, node ∈ _nodes a /\ node_name node = n /\
                get_node n a = (inr node, a, [])).
Proof.
  assert (Hck : forall x : NodeStruct,
             bool_decide (node_name x = n) = true <-> Some (node_name x) = Some n).
  { intros x. rewrite bool_decide_eq_true. split; [by intros ->|by intros [= ->]]. }
  unfold get_node, bind, get, node_names.
  rewrite elem_of_sorted, NoDup_sorted, <- omap_Some_map, find_one_filter.
  split; [split|].
  - intros Hn. by rewrite (filter_key_absent _ _ n Hck).
  - intros Heq Hn.
    destruct (filter_key_present _ _ n Hck (_nodes a) Hn) as (x & l' & Hf & _).
    rewrite Hf in Heq. by destruct l'.
  - intros Hn Hnd.
    destruct (filter_key_unique _ _ n Hck (_nodes a) Hnd Hn) as (x & Hf & Hx & Hk).
    exists x. rewrite Hf. by simplify_eq.
Qed.

Lemma get_node_of_name_witness :
  exists node, node ∈ _nodes arch_ab /\ node_name node = "B" /\
               get_node "B" arch_ab = (inr node, arch_ab, []).
Proof.
  apply (proj2 (get_node_of_name arch_ab "B")).
  - apply (bool_decide_unpack _). vm_compute. exact I.
  - apply (bool_decide_unpack _). vm_compute. exact I.
Defined.

(** ** Sorted listings *)

Lemma leb_refl (s : string) : String.leb s s = true.
Proof. by destruct (String.leb_total s s). Qed.

Section stable.
Context {A : Type} (key : A -> string) (t : string).

Lemma insert_by_filter_eq (x : A) (l : list A) :
  key x = t ->
  filter (fun y => key y = t) (insert_by key x l) = x :: filter (fun y => key y = t) l.
Proof.
  intros Hx. induction l as [|y l IH]; simpl.
  - rewrite filter_cons. by destruct (decide (key x = t)).
  - destruct (String.leb (key x) (key y)) eqn:Hle.
    + rewrite (filter_cons _ x). by destruct (decide (key x = t)).
    + assert (key y <> t).
      { intros Hy. rewrite Hx, Hy, leb_refl in Hle. done. }
      rewrite !(filter_cons _ y), IH. by destruct (decide (key y = t)).
Qed.

Lemma insert_by_filter_ne (x : A) (l : list A) :
  key x <> t ->
  filter (fun y => key y = t) (insert_by key x l) = filter (fun y => key y = t) l.
Proof.
  intros Hx. induction l as [|y l IH]; simpl.
  - rewrite filter_cons. by destruct (decide (key x = t)).
  - destruct (String.leb (key x) (key y)).
    + rewrite (filter_cons _ x). by destruct (decide (key x = t)).
    + by rewrite !(filter_cons _ y), IH.
Qed.

(** [sorted] is stable: the items of one key keep their order. *)
Lemma sorted_by_stable (l : list A) :
  filter (fun y => key y = t) (sorted_by key l) = filter (fun y => key y = t) l.
Proof.
  induction l as [|x l IH]; simpl; [done|].
  rewrite filter_cons. destruct (decide (key x = t)) as [Hx|Hx].
  - by rewrite insert_by_filter_eq, IH.
  - by rewrite insert_by_filter_ne, IH.
Qed.

End stable.

(** X8. [path_names], [executor_names] and [callback_group_names] are
    sorted and hold, as often as they are borne, the names of the stored
    named paths (a path without a name is skipped), of the executors and of
    the callback groups of the nodes. *)
Theorem names_sorted_listings (a : Architecture) :
  (Sorted (fun x y => String.leb x y = true) (path_names a) /\
   path_names a ≡ₚ omap path_name (_paths a) /\
   forall n, n ∈ path_names a <-> exists p, p ∈ _paths a /\ path_name p = Some n) /\
  (Sorted (fun x y => String.leb x y = true) (executor_names a) /\
   executor_names a ≡ₚ map executor_name (_executors a)) /\
  (Sorted (fun x y => String.leb x y = true) (callback_group_names a) /\
   callback_group_names a
     ≡ₚ map callback_group_name
          (concat (map (fun node => default [] (callback_groups node)) (_nodes a))) /\
   forall n, n ∈ callback_group_names a <->
     exists node groups g,
       node ∈ _nodes a /\ callback_groups node = Some groups /\ g ∈ groups /\
       callback_group_name g = n).
Proof.
  split; [|split].
  - split; [apply (sorted_by_Sorted (fun s => s))|]. split; [apply sorted_Permutation|].
    intros n. unfold path_names. rewrite elem_of_sorted. apply list_elem_of_omap.
  - split; [apply (sorted_by_Sorted (fun s => s))|apply sorted_Permutation].
  - split; [apply (sorted_by_Sorted (fun s => s))|].
    split; [apply sorted_Permutation|].
    intros n. unfold callback_group_names, Architecture_callback_groups.
    rewrite elem_of_sorted, list_elem_of_fmap. split.
    + intros (g & -> & Hg). apply elem_of_concat in Hg as (gs & Hg & Hgs).
      apply list_elem_of_fmap in Hgs as (node & -> & Hnode).
      destruct (callback_groups node) as [groups|] eqn:Hgroups;
        [|by apply elem_of_nil in Hg].
      by exists node, groups, g.
    + intros (node & groups & g & Hnode & Hgroups & Hg & <-).
      exists g. split; [done|]. apply elem_of_concat. exists groups.
      split; [done|]. apply list_elem_of_fmap. exists node. by rewrite Hgroups.
Qed.

(** X9. The [publishers] and [subscriptions] listings hold every publisher
    (subscription) of every node once per occurrence, sorted by topic name;
    those of one topic keep the order they have node after node. *)
Theorem publishers_sorted_stable (a : Architecture) :
  (Sorted (fun x y => String.leb (pub_topic_name x) (pub_topic_name y) = true)
          (Architecture_publishers a) /\
   Architecture_publishers a ≡ₚ concat (map publishers (_nodes a)) /\
   forall t, filter (fun x => pub_topic_name x = t) (Architecture_publishers a)
             = filter (fun x => pub_topic_name x = t) (concat (map publishers (_nodes a)))) /\
  (Sorted (fun x y => String.leb (sub_topic_name x) (sub_topic_name y) = true)
          (Architecture_subscriptions a) /\
   Architecture_subscriptions a ≡ₚ concat (map subscriptions (_nodes a)) /\
   forall t, filter (fun x => sub_topic_name x = t) (Architecture_subscriptions a)
             = filter (fun x => sub_topic_name x = t)
                      (concat (map subscriptions (_nodes a)))).
Proof.
  unfold Architecture_publishers, Architecture_subscriptions.
  split; (split; [apply sorted_by_Sorted|];
          split; [apply sorted_by_Permutation|]; intros t; apply sorted_by_stable).
Qed.

(** X10. [topic_names] is sorted, free of duplicates, and holds exactly the
    topic names of the publishers and of the subscriptions of the nodes. *)
Theorem topic_names_sorted_unique (a : Architecture) :
  Sorted (fun x y => String.leb x y = true) (topic_names a) /\
  NoDup (topic_names a) /\
  (forall t, t ∈ topic_names a <->
     exists node, node ∈ _nodes a /\
       ((exists pub, pub ∈ publishers node /\ pub_topic_name pub = t) \/
        (exists sub, sub ∈ subscriptions node /\ sub_topic_name sub = t))).
Proof.
  unfold topic_names.
  split; [apply (sorted_by_Sorted (fun s => s))|].
  split; [rewrite NoDup_sorted; apply NoDup_elements|].
  intros t. rewrite elem_of_sorted, elem_of_elements, elem_of_union,
    !elem_of_list_to_set, !list_elem_of_fmap.
  unfold Architecture_publishers, Architecture_subscriptions. split.
  - intros [(pub & -> & Hpub)|(sub & -> & Hsub)].
    + rewrite sorted_by_Permutation in Hpub.
      apply elem_of_concat in Hpub as (l & Hpub & Hl).
      apply list_elem_of_fmap in Hl as (node & -> & Hnode).
      exists node. split; [done|]. left. by exists pub.
    + rewrite sorted_by_Permutation in Hsub.
      apply elem_of_concat in Hsub as (l & Hsub & Hl).
      apply list_elem_of_fmap in Hl as (node & -> & Hnode).
      exists node. split; [done|]. right. by exists sub.
  - intros (node & Hnode & [(pub & Hpub & <-)|(sub & Hsub & <-)]).
    + left. exists pub. split; [done|]. rewrite sorted_by_Permutation.
      apply elem_of_concat. exists (publishers node).
      split; [done|]. by apply list_elem_of_fmap_2.
    + right. exists sub. split; [done|]. rewrite sorted_by_Permutation.
      apply elem_of_concat. exists (subscriptions node).
      split; [done|]. by apply list_elem_of_fmap_2.
Qed.

(** ** More on DiffArchitecture *)

(** X11. [diff_node_names] gives the node names the left architecture has
    and the right one lacks, and those the right one has and the left one
    lacks, each name once; for one and the same architecture on both sides
    both are empty. *)
Theorem diff_node_names_only (left_arch right_arch : Architecture) :
  (forall n, n ∈ (diff_node_names left_arch right_arch).1 <->
             n ∈ node_names left_arch /\ n ∉ node_names right_arch) /\
  (forall n, n ∈ (diff_node_names left_arch right_arch).2 <->
             n ∈ node_names right_arch /\ n ∉ node_names left_arch) /\
  NoDup (diff_node_names left_arch right_arch).1 /\
  NoDup (diff_node_names left_arch right_arch).2 /\
  diff_node_names left_arch left_arch = ([], []).
Proof.
  unfold diff_node_names. simpl. split; [|split; [|split; [|split]]].
  - intros n. rewrite elem_of_elements, elem_of_difference, elem_of_intersection,
      !elem_of_list_to_set. tauto.
  - intros n. rewrite elem_of_elements, elem_of_difference, elem_of_intersection,
      !elem_of_list_to_set. tauto.
  - apply NoDup_elements.
  - apply NoDup_elements.
  - assert (forall X : gset string, X ∖ (X ∩ X) = ∅) as ->.
    { intros X. apply set_eq. intros n.
      rewrite elem_of_difference, elem_of_intersection, elem_of_empty. tauto. }
    by rewrite elements_empty.
Qed.

(** ** More on ContextUpdater *)

Section update_contexts.
Variables (context_type' sub_topic pub_topic : string).

Lemma foldl_append_context (ps : list NodePathStruct) (cs : list context_dict) :
  foldl (append_context context_type' sub_topic pub_topic) cs ps
  = (cs ++ omap (appended_context context_type' sub_topic pub_topic) ps)%list.
Proof.
  revert cs. induction ps as [|p ps IH]; intros cs; simpl; [by rewrite app_nil_r|].
  rewrite IH. unfold append_context, appended_context.
  destruct (message_context p); [done|].
  case_bool_decide; [|done]. by rewrite <- app_assoc.
Qed.

Lemma overwrite_context_type_pair (c : context_dict) :
  subscription_topic_name (overwrite_context_type context_type' sub_topic pub_topic c)
    = subscription_topic_name c /\
  publisher_topic_name (overwrite_context_type context_type' sub_topic pub_topic c)
    = publisher_topic_name c.
Proof. unfold overwrite_context_type. by case_bool_decide. Qed.

(** X12. After [ContextUpdater.update_message_context] the records kept so
    far are still there, in place, those of the topic pair with the new
    type and the others as they were; behind them comes one new record, with
    the construction orders of the path, for every node path of the pair
    that has no context. So every record of the pair has the new type, and
    the records of other pairs are the ones there were. *)
Theorem update_message_context_retypes (u : ContextUpdater) :
  let u' := ContextUpdater_update_message_context
              context_type' sub_topic pub_topic u in
  _node u' = _node u /\
  get_message_contexts u' =
    (map (overwrite_context_type context_type' sub_topic pub_topic)
         (get_message_contexts u)
     ++ omap (appended_context context_type' sub_topic pub_topic) (paths (_node u)))%list /\
  (forall c, c ∈ get_message_contexts u' ->
     subscription_topic_name c = Some sub_topic ->
     publisher_topic_name c = Some pub_topic ->
     context_type c = context_type') /\
  (forall c, ~ (subscription_topic_name c = Some sub_topic /\
                publisher_topic_name c = Some pub_topic) ->
     (c ∈ get_message_contexts u' <-> c ∈ get_message_contexts u)).
Proof.
  simpl. unfold get_message_contexts, ContextUpdater_update_message_context. simpl.
  rewrite foldl_append_context. split; [done|]. split; [done|]. split.
  - intros c [Hc|Hc]%elem_of_app Hs Hp.
    + apply list_elem_of_fmap in Hc as (c0 & -> & _).
      destruct (overwrite_context_type_pair c0) as [Hs0 Hp0].
      rewrite Hs0 in Hs. rewrite Hp0 in Hp.
      unfold overwrite_context_type. rewrite bool_decide_eq_true_2; [done|].
      by rewrite Hs, Hp.
    + apply list_elem_of_omap in Hc as (path & _ & Hc).
      unfold appended_context in Hc. destruct (message_context path); [done|].
      case_bool_decide; by simplify_eq.
  - intros c Hpair. rewrite elem_of_app. split.
    + intros [Hc|Hc].
      * apply list_elem_of_fmap in Hc as (c0 & -> & Hc0).
        unfold overwrite_context_type in *. case_bool_decide as Heq; [|done].
        exfalso. apply Hpair. simpl. by simplify_eq.
      * exfalso. apply list_elem_of_omap in Hc as (path & _ & Hc).
        unfold appended_context in Hc. destruct (message_context path); [done|].
        case_bool_decide; [|done]. simplify_eq. by apply Hpair.
    + intros Hc. left. apply list_elem_of_fmap. exists c. split; [|done].
      unfold overwrite_context_type. case_bool_decide as Heq; [|done].
      exfalso. apply Hpair. by simplify_eq.
Qed.

End update_contexts.

Lemma update_message_context_retypes_witness :
  context_type (context_of "use_latest_message" 0) = "use_latest_message".
Proof.
  apply (proj1 (proj2 (proj2
           (update_message_context_retypes "use_latest_message" "/in" "/out"
              updater_in_out)))).
  - apply (bool_decide_unpack _). vm_compute. exact I.
  - reflexivity.
  - reflexivity.
Defined.

Lemma filter_idemp {A} (P : A -> Prop) `{forall x, Decision (P x)} (l : list A) :
  filter P (filter P l) = filter P l.
Proof.
  induction l as [|x l IH]; [done|].
  rewrite filter_cons. destruct (decide (P x)); [|done].
  rewrite filter_cons. destruct (decide (P x)); [by rewrite IH|done].
Qed.

Lemma filter_comm {A} (P Q : A -> Prop) `{forall x, Decision (P x)}
    `{forall x, Decision (Q x)} (l : list A) :
  filter P (filter Q l) = filter Q (filter P l).
Proof.
  induction l as [|x l IH]; [done|].
  rewrite !(filter_cons _ x).
  destruct (decide (Q x)), (decide (P x)); rewrite ?(filter_cons _ x);
    repeat case_decide; try done; by rewrite IH.
Qed.

(** X13. Removing a callback chain a second time changes nothing, and two
    removals can be done in either order. *)
Theorem remove_callback_chain_twice (u : ContextUpdater)
    (s1 : string) (so1 : Z) (p1 : string) (po1 : Z)
    (s2 : string) (so2 : Z) (p2 : string) (po2 : Z) :
  remove_callback_chain s1 so1 p1 po1 (remove_callback_chain s1 so1 p1 po1 u)
    = remove_callback_chain s1 so1 p1 po1 u /\
  remove_callback_chain s1 so1 p1 po1 (remove_callback_chain s2 so2 p2 po2 u)
    = remove_callback_chain s2 so2 p2 po2 (remove_callback_chain s1 so1 p1 po1 u).
Proof.
  unfold remove_callback_chain. simpl. split; f_equal.
  - apply filter_idemp.
  - apply filter_comm.
Qed.

(** ** More on [search_paths] *)

(** X14. [search_paths] never changes the architecture. With known
    waypoints it calls the searcher once, with the depth given (15 for no
    depth or depth 0, any other depth as it is); the warning is printed
    before the call exactly when that depth is above 15, and the closing
    message after it only when the searcher has not raised. *)
Theorem search_paths_trace
    (search : list NodeStruct -> list CommunicationStruct -> Z ->
              option (string -> bool) -> option (string -> bool) ->
              list string -> Z -> error + list PathStruct)
    (a : Architecture) (names : list string) (max_node_depth : option Z)
    (node_filter communication_filter : option (string -> bool)) :
  state_of (search_paths search names max_node_depth node_filter communication_filter a)
    = a /\
  (Forall (fun w => w ∈ node_names a) names ->
   let depth := depth_or_default max_node_depth in
   search_paths search names max_node_depth node_filter communication_filter a =
     match search (_nodes a) (_communications a)
                  (_max_callback_construction_order_on_path_searching a)
                  node_filter communication_filter names depth with
     | inl e => (inl e, a, (depth_warning depth ++ [Searched names depth])%list)
     | inr found =>
         (inr (map PathStruct_to_value found), a,
          (depth_warning depth
           ++ [Searched names depth; Printed (msg_search_completed depth)])%list)
     end) /\
  (forall d, d <> 0 -> depth_or_default (Some d) = d).
Proof.
  assert (Hknown : Forall (fun w => w ∈ node_names a) names ->
    search_paths search names max_node_depth node_filter communication_filter a =
     match search (_nodes a) (_communications a)
                  (_max_callback_construction_order_on_path_searching a)
                  node_filter communication_filter names
                  (depth_or_default max_node_depth) with
     | inl e => (inl e, a, (depth_warning (depth_or_default max_node_depth)
                            ++ [Searched names (depth_or_default max_node_depth)])%list)
     | inr found =>
         (inr (map PathStruct_to_value found), a,
          (depth_warning (depth_or_default max_node_depth)
           ++ [Searched names (depth_or_default max_node_depth);
               Printed (msg_search_completed (depth_or_default max_node_depth))])%list)
     end).
  { intros Hk. unfold search_paths, bind, depth_warning.
    rewrite (check_node_names_known a names Hk).
    case_bool_decide; simpl; by destruct (search _ _ _ _ _ _ _). }
  split; [|split; [done|]].
  - destruct (decide (Forall (fun w => w ∈ node_names a) names)) as [Hk|Hk].
    + rewrite Hknown by done. by destruct (search _ _ _ _ _ _ _).
    + apply not_Forall_Exists in Hk; [|intros w; apply _].
      destruct (check_node_names_unknown a names Hk) as (w & _ & _ & Heq).
      unfold search_paths, bind. by rewrite Heq.
  - intros d Hd. unfold depth_or_default. by rewrite bool_decide_eq_false_2.
Qed.

Lemma search_paths_trace_witness :
  search_paths no_path_found ["A"; "B"] (Some 20) None None arch_ab =
    (inr [], arch_ab,
     [Printed msg_depth_warning; Searched ["A"; "B"] 20;
      Printed (msg_search_completed 20)]).
Proof.
  apply (proj1 (proj2 (search_paths_trace no_path_found arch_ab ["A"; "B"] (Some 20)
                         None None))).
  apply (bool_decide_unpack _). vm_compute. exact I.
Defined.

(** ** More on [_verify] *)






(** ** More on [update_message_context] *)

Lemma map_insert_same {A B} (f : A -> B) (l : list A) (i : nat) (x x' : A) :
  l !! i = Some x -> f x' = f x -> map f (<[i := x']> l) = map f l.
Proof.
  revert i. induction l as [|y l IH]; intros i Hi Hf; [done|].
  destruct i as [|i]; simpl in *.
  - simplify_eq. by rewrite Hf.
  - f_equal. by apply IH.
Qed.

(** X16. [Architecture.update_message_context] prints nothing and is all or
    nothing: when it raises, the architecture is as before. When it returns,
    one node, of the given name, has the node paths the loader derived from
    the updated contexts, and nothing else has changed: the stored paths,
    communications and executors and the names of the nodes are the same. *)
Theorem update_message_context_changes_one_node
    (search_node_paths : NodeStruct -> list context_dict -> Z -> error + list NodePathStruct)
    (a : Architecture) (name context_type' sub_topic pub_topic : string) :
  let o := update_message_context search_node_paths
             name context_type' sub_topic pub_topic a in
  events_of o = [] /\
  (forall e, result_of o = inl e -> state_of o = a) /\
  _paths (state_of o) = _paths a /\
  _communications (state_of o) = _communications a /\
  _executors (state_of o) = _executors a /\
  map node_name (_nodes (state_of o)) = map node_name (_nodes a) /\
  (result_of o = inr tt ->
   exists i node node_paths,
     _nodes a !! i = Some node /\ node_name node = name /\
     search_node_paths node
       (get_message_contexts
          (ContextUpdater_update_message_context context_type' sub_topic pub_topic
             (ContextUpdater_init node)))
       (_max_callback_construction_order_on_path_searching a) = inr node_paths /\
     _nodes (state_of o) = <[i := update_node_path node_paths node]> (_nodes a)).
Proof.
  simpl. unfold update_message_context, bind, get, result_of, state_of, events_of.
  destruct (find_one_at _ (_nodes a)) as [e|[i node]] eqn:Hfound; simpl;
    [by repeat split|].
  apply find_one_at_inr in Hfound as [Hi Hname%bool_decide_eq_true].
  destruct (negb (bool_decide (pub_topic ∈ publish_topic_names node))); simpl;
    [by repeat split|].
  destruct (negb (bool_decide (sub_topic ∈ subscribe_topic_names node))); simpl;
    [by repeat split|].
  destruct (search_node_paths node _ _) as [e|node_paths] eqn:Hsnp; simpl;
    [by repeat split|].
  repeat (split; [done|]). split.
  - by apply (map_insert_same _ _ _ node).
  - intros _. by exists i, node, node_paths.
Qed.

Lemma update_message_context_changes_one_node_witness :
  exists i node node_paths,
    _nodes arch_in_out !! i = Some node /\ node_name node = "A" /\
    no_node_path node
      (get_message_contexts
         (ContextUpdater_update_message_context "callback_chain" "/in" "/out"
            (ContextUpdater_init node)))
      (_max_callback_construction_order_on_path_searching arch_in_out) = inr node_paths /\
    _nodes (state_of (update_message_context no_node_path
                        "A" "callback_chain" "/in" "/out" arch_in_out))
      = <[i := update_node_path node_paths node]> (_nodes arch_in_out).
Proof.
  apply (proj2 (proj2 (proj2 (proj2 (proj2 (proj2
           (update_message_context_changes_one_node no_node_path arch_in_out
              "A" "callback_chain" "/in" "/out"))))))).
  reflexivity.
Defined.

(** ** More on renaming *)

Lemma map_alter_same {A B} (g : A -> B) (f : A -> A) (i : nat) (l : list A) :
  (forall x, g (f x) = g x) -> map g (alter f i l) = map g l.
Proof.
  intros Hg. revert i. induction l as [|y l IH]; intros i; [done|].
  destruct i as [|i]; simpl; [by rewrite Hg|]. f_equal. apply IH.
Qed.

Lemma omap_alter_Permutation {A} (key : A -> option string) (f : A -> A)
    (dst : string) (i : nat) (x : A) (l : list A) :
  l !! i = Some x -> (forall y, key (f y) = Some dst) ->
  omap key (alter f i l) ≡ₚ dst :: omap key (delete i l).
Proof.
  intros Hi Hf. revert i Hi. induction l as [|y l IH]; intros i Hi; [done|].
  destruct i as [|i]; simpl in *.
  - by rewrite Hf.
  - destruct (key y); rewrite (IH i) by done; [apply Permutation_swap|done].
Qed.

Section rename_facts.
Variable similar : string -> list (option string) -> option nat.

Lemma find_similar_one_inr {A} (target : string) (items : list A)
    (key : A -> option string) (i : nat) :
  find_similar_one similar target items key = inr i -> is_Some (items !! i).
Proof.
  unfold find_similar_one.
  destruct (list_find _ items) as [[j x]|] eqn:Hfind.
  - intros [= <-]. apply list_find_Some in Hfind as (Hj & _). by exists x.
  - destruct (similar target (map key items)) as [j|]; [|done].
    case_bool_decide as Hlt; [|done]. intros [= <-]. by apply lookup_lt_is_Some.
Qed.

(** X17. [rename_path] changes the name of one stored path and nothing
    else: whichever path the lookup picks, the children of every stored path,
    the number of paths, the nodes, communications and executors stay, and
    the new name is among [path_names] afterwards. When the lookup raises,
    nothing has changed. *)
Theorem rename_path_changes_one_name (a : Architecture) (src dst : string) :
  let o := rename_path similar src dst a in
  events_of o = [] /\
  (forall e, result_of o = inl e -> state_of o = a) /\
  _nodes (state_of o) = _nodes a /\
  _communications (state_of o) = _communications a /\
  _executors (state_of o) = _executors a /\
  map child (_paths (state_of o)) = map child (_paths a) /\
  (result_of o = inr tt ->
   exists i p,
     _paths a !! i = Some p /\
     _paths (state_of o) = alter (set_path_name dst) i (_paths a) /\
     path_names (state_of o) ≡ₚ dst :: omap path_name (delete i (_paths a))).
Proof.
  simpl. unfold rename_path, bind, get, result_of, state_of, events_of.
  destruct (find_similar_one similar src (_paths a) path_name) as [e|i] eqn:Hfind;
    simpl; [by repeat split|].
  apply find_similar_one_inr in Hfind as [p Hp].
  repeat (split; [done|]). split; [by apply map_alter_same|].
  intros _. exists i, p. split; [done|]. split; [done|].
  unfold path_names. simpl. rewrite sorted_Permutation.
  by apply (omap_alter_Permutation _ _ dst i p).
Qed.

(** X18. With pairwise distinct path names of which [src] is one,
    [rename_path] returns, whatever the near-name matcher would say, and it
    is the one path of that name that gets the new name: [path_names] loses
    [src] and gains [dst], and no path is named [src] any more unless [dst]
    is [src]. *)
Theorem rename_path_exact_match (a : Architecture) (src dst : string) :
  NoDup (path_names a) -> src ∈ path_names a ->
  exists i p,
    _paths a !! i = Some p /\ path_name p = Some src /\
    (forall j q, _paths a !! j = Some q -> path_name q = Some src -> j = i) /\
    rename_path similar src dst a =
      (inr tt, set_paths (alter (set_path_name dst) i (_paths a)) a, []) /\
    path_names a ≡ₚ src :: omap path_name (delete i (_paths a)) /\
    path_names (state_of (rename_path similar src dst a))
      ≡ₚ dst :: omap path_name (delete i (_paths a)) /\
    (dst <> src -> src ∉ path_names (state_of (rename_path similar src dst a))).
Proof.
  intros Hnd Hsrc. unfold path_names in Hsrc, Hnd.
  rewrite elem_of_sorted in Hsrc. rewrite NoDup_sorted in Hnd.
  destruct (filter_key_unique path_name _ src (path_name_cond src) (_paths a) Hnd Hsrc)
    as (p0 & Hfilter & Hp0 & Hname0).
  destruct (list_find (fun x => path_name x = Some src) (_paths a)) as [[i p]|] eqn:Hfind.
  - pose proof Hfind as (Hi & Hname & Hbefore)%list_find_Some.
    assert (Hperm : omap path_name (_paths a)
                    ≡ₚ src :: omap path_name (delete i (_paths a)))
      by (by apply (omap_delete_Permutation _ _ i p)).
    assert (Hgone : src ∉ omap path_name (delete i (_paths a))).
    { rewrite Hperm in Hnd. by apply NoDup_cons in Hnd as [? _]. }
    exists i, p. split; [done|]. split; [done|]. split.
    { intros j q Hq Hqname. destruct (decide (j = i)) as [|Hne]; [done|].
      exfalso. apply Hgone. apply list_elem_of_omap. exists q. split; [|done].
      apply list_elem_of_lookup.
      destruct (decide (j < i)%nat) as [Hlt|Hge].
      - exists j. by rewrite list_lookup_delete_lt.
      - exists (pred j). rewrite list_lookup_delete_ge by lia.
        by replace (S (pred j)) with j by lia. }
    assert (Heq : rename_path similar src dst a =
              (inr tt, set_paths (alter (set_path_name dst) i (_paths a)) a, [])).
    { unfold rename_path, bind, get, find_similar_one. by rewrite Hfind. }
    split; [done|]. rewrite Heq. unfold path_names, state_of. simpl.
    rewrite !sorted_Permutation.
    assert (Hperm' : omap path_name (alter (set_path_name dst) i (_paths a))
                     ≡ₚ dst :: omap path_name (delete i (_paths a)))
      by (by apply (omap_alter_Permutation _ _ dst i p)).
    split; [done|]. split; [done|].
    intros Hne. rewrite Hperm'.
    intros [?|?]%elem_of_cons; [by apply Hne|done].
  - exfalso. apply list_find_None in Hfind.
    by apply (proj1 (Forall_forall _ _) Hfind p0).
Qed.

End rename_facts.

Lemma rename_path_changes_one_name_witness :
  exists i p,
    _paths arch_ab !! i = Some p /\
    _paths (state_of (rename_path no_similar "a" "c" arch_ab))
      = alter (set_path_name "c") i (_paths arch_ab) /\
    path_names (state_of (rename_path no_similar "a" "c" arch_ab))
      ≡ₚ "c" :: omap path_name (delete i (_paths arch_ab)).
Proof.
  apply (proj2 (proj2 (proj2 (proj2 (proj2 (proj2
           (rename_path_changes_one_name no_similar arch_ab "a" "c"))))))).
  reflexivity.
Defined.

Lemma rename_path_exact_match_witness :
  exists i p,
    _paths arch_ab !! i = Some p /\ path_name p = Some "a" /\
    (forall j q, _paths arch_ab !! j = Some q -> path_name q = Some "a" -> j = i) /\
    rename_path no_similar "a" "c" arch_ab =
      (inr tt, set_paths (alter (set_path_name "c") i (_paths arch_ab)) arch_ab, []) /\
    path_names arch_ab ≡ₚ "a" :: omap path_name (delete i (_paths arch_ab)) /\
    path_names (state_of (rename_path no_similar "a" "c" arch_ab))
      ≡ₚ "c" :: omap path_name (delete i (_paths arch_ab)) /\
    ("c" <> "a" -> "a" ∉ path_names (state_of (rename_path no_similar "a" "c" arch_ab))).
Proof.
  apply (rename_path_exact_match no_similar arch_ab "a" "c").
  - apply (bool_decide_unpack _). vm_compute. exact I.
  - apply (bool_decide_unpack _). vm_compute. exact I.
Defined.

(** ** Named paths: how the calls compose *)

(** X19. A path that was just added is found: after [add_path(n, p)] has
    returned, [get_path(n)] gives a path value of name [n] whose children
    are, in order, the stored node paths and communications that the
    children of [p] were matched with. *)
Theorem add_path_get_path (a a1 : Architecture) (n : string) (p : PathStructValue) :
  add_path n p a = (inr tt, a1, []) ->
  exists children,
    Forall2 (child_resolves a) (pv_child p) children /\
    get_path n a1 =
      (inr {| pv_path_name := Some n; pv_child := map child_to_value children |},
       a1, []).
Proof.
  intros Hadd.
  destruct (add_path_cases a n p) as [[e He]|(children & Hn & Hr & Heq)];
    [congruence|].
  rewrite Heq in Hadd. injection Hadd as <-.
  exists children. split; [by apply resolve_children_resolves|].
  unfold get_path, bind, get. rewrite bool_decide_eq_true_2.
  - rewrite find_one_filter. simpl. rewrite filter_app.
    rewrite (filter_key_absent path_name _ n (path_name_cond n)).
    + rewrite filter_cons, decide_True by (by apply bool_decide_eq_true). done.
    + intros Hin. apply Hn. unfold path_names. by apply elem_of_sorted.
  - unfold path_names. apply elem_of_sorted. simpl. rewrite omap_app.
    apply elem_of_app. right. simpl. by left.
Qed.

Lemma add_path_get_path_witness :
  exists children,
    Forall2 (child_resolves arch_ab) (pv_child path_value_a) children /\
    get_path "c" (arch_of [named_node "A"; named_node "B"]
                          [named_path "a"; named_path "b"; named_path "c"]) =
      (inr {| pv_path_name := Some "c"; pv_child := map child_to_value children |},
       arch_of [named_node "A"; named_node "B"]
               [named_path "a"; named_path "b"; named_path "c"], []).
Proof.
  apply (add_path_get_path arch_ab _ "c" path_value_a). reflexivity.
Defined.

(** X20. With pairwise distinct path names, a path that was removed is no
    longer found: after [remove_path(n)], [get_path(n)] raises the
    [InvalidArgumentError] that names the path. *)
Theorem remove_path_get_path (a : Architecture) (n : string) :
  NoDup (path_names a) -> n ∈ path_names a ->
  get_path n (state_of (remove_path n a)) =
    (inl (InvalidArgumentError ("Failed to get named path. " ++ n ++ " not exist.")),
     state_of (remove_path n a), []).
Proof.
  intros Hnd Hn.
  destruct (remove_path_present a n Hn) as (i & q & Hq & Hname & _ & Heq).
  rewrite Heq. unfold state_of. simpl.
  unfold get_path, bind, get. rewrite bool_decide_eq_false_2; [done|].
  unfold path_names in *. simpl. rewrite elem_of_sorted. rewrite NoDup_sorted in Hnd.
  rewrite (omap_delete_Permutation path_name n i q) in Hnd by done.
  by apply NoDup_cons in Hnd as [? _].
Qed.

Lemma remove_path_get_path_witness :
  get_path "a" (state_of (remove_path "a" arch_ab)) =
    (inl (InvalidArgumentError "Failed to get named path. a not exist."),
     state_of (remove_path "a" arch_ab), []).
Proof.
  apply (remove_path_get_path arch_ab "a").
  - apply (bool_decide_unpack _). vm_compute. exact I.
  - apply (bool_decide_unpack _). vm_compute. exact I.
Defined.

Lemma resolve_children_set_paths (a : Architecture) (ps : list PathStruct)
    (cs : list child_value) :
  resolve_children (set_paths ps a) cs = resolve_children a cs.
Proof.
  induction cs as [|c cs IH]; simpl; [done|].
  rewrite IH. by destruct c.
Qed.

(** X21. [update_path(n, p)] with [p] itself named [n]: when the stored
    names are pairwise distinct, [n] is one of them and every child of [p]
    can be matched, the call returns; the stored path of that name is taken
    out, the new one is appended behind all others, and [path_names] holds
    the same names as before. *)
Theorem update_path_same_name (a : Architecture) (n : string) (p : PathStructValue)
    (children : list path_child) :
  pv_path_name p = Some n -> NoDup (path_names a) -> n ∈ path_names a ->
  resolve_children a (pv_child p) = inr children ->
  exists i old,
    _paths a !! i = Some old /\ path_name old = Some n /\
    update_path n p a =
      (inr tt,
       set_paths (delete i (_paths a) ++ [{| path_name := Some n; child := children |}])%list
                 a, []) /\
    path_names (state_of (update_path n p a)) ≡ₚ path_names a.
Proof.
  intros Hp Hnd Hn Hres.
  destruct (remove_path_present a n Hn) as (i & old & Hold & Hname & _ & Heq).
  exists i, old. split; [done|]. split; [done|].
  assert (Hperm : omap path_name (_paths a) ≡ₚ n :: omap path_name (delete i (_paths a)))
    by (by apply (omap_delete_Permutation _ _ i old)).
  assert (Hfree : n ∉ path_names (set_paths (delete i (_paths a)) a)).
  { unfold path_names in *. simpl. rewrite elem_of_sorted.
    rewrite NoDup_sorted, Hperm in Hnd. by apply NoDup_cons in Hnd as [? _]. }
  assert (Hup : update_path n p a =
      (inr tt,
       set_paths (delete i (_paths a) ++ [{| path_name := Some n; child := children |}])%list
                 a, [])).
  { unfold update_path. rewrite Hp. unfold bind at 1. rewrite Heq.
    unfold add_path, bind, get. rewrite bool_decide_eq_false_2 by done.
    rewrite resolve_children_set_paths, Hres. done. }
  split; [done|]. rewrite Hup. unfold path_names, state_of. simpl.
  rewrite !sorted_Permutation, omap_app, Hperm. simpl.
  by rewrite <- Permutation_cons_append.
Qed.

Lemma update_path_same_name_witness :
  exists i old,
    _paths arch_ab !! i = Some old /\ path_name old = Some "a" /\
    update_path "a" path_value_a arch_ab =
      (inr tt,
       set_paths (delete i (_paths arch_ab) ++ [{| path_name := Some "a"; child := [] |}])%list
                 arch_ab, []) /\
    path_names (state_of (update_path "a" path_value_a arch_ab)) ≡ₚ path_names arch_ab.
Proof.
  apply (update_path_same_name arch_ab "a" path_value_a []).
  - reflexivity.
  - apply (bool_decide_unpack _). vm_compute. exact I.
  - apply (bool_decide_unpack _). vm_compute. exact I.
  - reflexivity.
Defined.
